(** * Behaviour trees: a shallow embedding of [behaviour_tree.py]

    The module defines a tri-state [Status], two leaf classes ([Condition],
    [Action]) wrapping caller-supplied callables, and two composite classes
    ([Fallback], [Sequence]) that walk an ordered, mutable list of children.

    Python objects are mutable and are shared by reference, so nodes live in
    a store indexed by locations; a composite's [_children] is a list of
    locations.  The wrapped callables are opaque code of the embedding
    application: they act on an abstract world [W], may return or raise,
    and do not reach into the tree. *)

From stdpp Require Import base option list gmap strings.
From Stdlib Require Import ZArith Lia.

Local Open Scope Z_scope.

(** ** Status (lines 6-10) *)

Inductive Status : Type := SUCCESS | RUNNING | FAIL.

#[global] Instance Status_eq_dec : EqDecision Status.
Proof. solve_decision. Defined.

(** The integer each member of the enumeration carries. *)
Definition Status_value (st : Status) : Z :=
  match st with SUCCESS => 0 | RUNNING => 1 | FAIL => 2 end.

(** ** Python-level values, exceptions and results *)

(** Exceptions that can travel through the module.  None is created by the
    module's own code: [OverflowError] comes from the list primitive below,
    everything else from the wrapped callables. *)
Inductive exn : Type :=
| IndexError
| OverflowError
| Exception (name : string).

#[global] Instance exn_eq_dec : EqDecision exn.
Proof. solve_decision. Defined.

(** A call either returns a value or raises. *)
Inductive res (A : Type) : Type :=
| Ret (a : A)
| Raise (e : exn).
Arguments Ret {A} a.
Arguments Raise {A} e.

(** What a predicate may hand back to [if self.__condition():]. *)
Inductive value : Type :=
| VBool (b : bool)
| VNone
| VInt (n : Z)
| VStr (s : string).

(** Python truth-value testing on those values. *)
Definition truthy (v : value) : bool :=
  match v with
  | VBool b => b
  | VNone => false
  | VInt n => negb (n =? 0)
  | VStr s => negb (String.eqb s "")
  end.

(** ** The list primitives used by [CompositeNode] *)

(** [list.insert] takes its index as a [Py_ssize_t]; converting a Python
    integer that does not fit raises [OverflowError] ("Python int too large
    to convert to C ssize_t") before the list is touched.  The bounds are
    those of a 64-bit build: [sys.maxsize] and [-sys.maxsize - 1]. *)
Definition PY_SSIZE_T_MAX : Z := 2 ^ 63 - 1.
Definition PY_SSIZE_T_MIN : Z := - 2 ^ 63.

Definition as_ssize_t (i : Z) : res Z :=
  if (PY_SSIZE_T_MIN <=? i) && (i <=? PY_SSIZE_T_MAX) then Ret i
  else Raise OverflowError.

(** The position at which [list.insert] puts the new item in a list of
    length [n]: a negative index counts from the end, and both ends clamp. *)
Definition insert_position (n : Z) (index : Z) : Z :=
  let where_ := if index <? 0
                then (if index + n <? 0 then 0 else index + n)
                else index in
  if where_ >? n then n else where_.

Definition pylist_insert {A : Type} (l : list A) (index : Z) (x : A)
  : res (list A) :=
  match as_ssize_t index with
  | Raise e => Raise e
  | Ret i =>
      let p := Z.to_nat (insert_position (Z.of_nat (length l)) i) in
      Ret (take p l ++ x :: drop p l)
  end.

Definition pylist_append {A : Type} (l : list A) (x : A) : list A :=
  l ++ [x].

(** ** Nodes and the store *)

(** Object identity. *)
Definition loc : Type := positive.

(** The two concrete subclasses of [CompositeNode]. *)
Inductive kind : Type := Fallback | Sequence.

#[global] Instance kind_eq_dec : EqDecision kind.
Proof. solve_decision. Defined.

Section BehaviourTree.

(** The state of the embedding application, seen and changed only by the
    wrapped callables. *)
Context {W : Type}.

(** A zero-argument callable: runs against the world, returns or raises. *)
Definition callable (A : Type) : Type := W -> res A * W.

(** An instance of one of the four concrete classes with its attributes:
    [CompositeNode._children], [Condition.__condition],
    [Action._status] and [Action.__action]. *)
Inductive node : Type :=
| Composite (k : kind) (_children : list loc)
| Condition (condition : callable value)
| Action (_status : Status) (action : callable Status).

(** The store of node objects, the world of the callables, and a ghost
    log of the leaves whose callable has been invoked, oldest first
    (call-count instrumentation; nothing reads it). *)
Record state : Type := State {
  heap : gmap loc node;
  world : W;
  calls : list loc
}.

Definition set_heap (h : gmap loc node) (s : state) : state :=
  {| heap := h; world := world s; calls := calls s |}.

(** Invoking the callable of leaf [self]: the world moves and the ghost
    log grows by one entry. *)
Definition invoke {A : Type} (self : loc) (f : callable A) (s : state)
  : res A * state :=
  let '(r, w) := f (world s) in
  (r, {| heap := heap s; world := w; calls := calls s ++ [self] |}).

(** *** Construction (lines 27-28, 82-83, 98-100) *)

Definition alloc (n : node) (s : state) : loc * state :=
  let l := fresh (dom (heap s)) in
  (l, set_heap (<[l := n]> (heap s)) s).

(** [CompositeNode.__init__]: [self._children = []]. *)
Definition new_Composite (k : kind) : state -> loc * state :=
  alloc (Composite k []).

(** [Condition.__init__]. *)
Definition new_Condition (condition : callable value)
  : state -> loc * state :=
  alloc (Condition condition).

(** [Action.__init__]: [self._status = Status.RUNNING]. *)
Definition new_Action (action : callable Status) : state -> loc * state :=
  alloc (Action RUNNING action).

(** *** [CompositeNode.add_child] and [insert_child] (lines 34-42)

    Both are methods of composites only; on any other receiver there is
    no such call and the model gives [None]. *)

Definition add_child (self child : loc) (s : state)
  : option (res loc * state) :=
  match heap s !! self with
  | Some (Composite k children) =>
      let children' := pylist_append children child in
      Some (Ret self, set_heap (<[self := Composite k children']> (heap s)) s)
  | _ => None
  end.

Definition insert_child (self : loc) (index : Z) (child : loc) (s : state)
  : option (res loc * state) :=
  match heap s !! self with
  | Some (Composite k children) =>
      match pylist_insert children index child with
      | Raise e => Some (Raise e, s)
      | Ret children' =>
          Some (Ret self,
                set_heap (<[self := Composite k children']> (heap s)) s)
      end
  | _ => None
  end.

(** *** The [run] methods (lines 48-58, 64-74, 85-90, 102-105) *)

(** The type of [child.run()] as seen by a composite's loop.  [None] is
    the model running out of recursion depth or meeting a dangling
    reference; it is no Python outcome. *)
Definition runner : Type := loc -> state -> option (res Status * state).

(** [Fallback.run]: the [for] loop over [self._children]. *)
Fixpoint Fallback_run (run_child : runner) (children : list loc) (s : state)
  : option (res Status * state) :=
  match children with
  | [] => Some (Ret FAIL, s)
  | child :: rest =>
      match run_child child s with
      | None => None
      | Some (Raise e, s') => Some (Raise e, s')
      | Some (Ret status, s') =>
          if decide (status = SUCCESS) then Some (Ret SUCCESS, s')
          else if decide (status = RUNNING) then Some (Ret RUNNING, s')
          else Fallback_run run_child rest s'
      end
  end.

(** [Sequence.run]: the [for] loop over [self._children]. *)
Fixpoint Sequence_run (run_child : runner) (children : list loc) (s : state)
  : option (res Status * state) :=
  match children with
  | [] => Some (Ret SUCCESS, s)
  | child :: rest =>
      match run_child child s with
      | None => None
      | Some (Raise e, s') => Some (Raise e, s')
      | Some (Ret status, s') =>
          if decide (status = FAIL) then Some (Ret FAIL, s')
          else if decide (status = RUNNING) then Some (Ret RUNNING, s')
          else Sequence_run run_child rest s'
      end
  end.

(** [Condition.run]. *)
Definition Condition_run (self : loc) (condition : callable value)
    (s : state) : res Status * state :=
  match invoke self condition s with
  | (Raise e, s') => (Raise e, s')
  | (Ret v, s') => (Ret (if truthy v then SUCCESS else FAIL), s')
  end.

(** [Action.run]: [self._status = self.__action(); return self._status]. *)
Definition Action_run (self : loc) (action : callable Status) (s : state)
  : res Status * state :=
  match invoke self action s with
  | (Raise e, s') => (Raise e, s')
  | (Ret status, s') =>
      (Ret status, set_heap (<[self := Action status action]> (heap s')) s')
  end.

(** Dynamic dispatch of [run] on the class of the object at [self].  The
    recursion through children is bounded by [fuel], since nothing stops
    a caller from building a cyclic structure.  Callables do not touch
    the store, so the list a loop walks is the one it read on entry.  The
    interpreter's own limits (recursion depth, memory) are not modelled. *)
Fixpoint run (fuel : nat) (self : loc) (s : state)
  : option (res Status * state) :=
  match fuel with
  | O => None
  | S fuel' =>
      match heap s !! self with
      | None => None
      | Some (Composite Fallback children) =>
          Fallback_run (run fuel') children s
      | Some (Composite Sequence children) =>
          Sequence_run (run fuel') children s
      | Some (Condition condition) => Some (Condition_run self condition s)
      | Some (Action _ action) => Some (Action_run self action s)
      end
  end.

(** [self.run()] returns or raises [r], leaving the state [s']. *)
Definition returns (self : loc) (s : state) (r : res Status) (s' : state)
  : Prop :=
  exists fuel, run fuel self s = Some (r, s').

(** The nodes of [l] are run one after the other, each returning [st]. *)
Inductive all_return (st : Status) : list loc -> state -> state -> Prop :=
| all_return_nil s : all_return st [] s s
| all_return_cons c cs s s1 s2 :
    returns c s (Ret st) s1 ->
    all_return st cs s1 s2 ->
    all_return st (c :: cs) s s2.

(** Attribute reads used in the statements. *)
Definition children_of (s : state) (l : loc) : option (list loc) :=
  match heap s !! l with
  | Some (Composite _ children) => Some children
  | _ => None
  end.

Definition status_of (s : state) (l : loc) : option Status :=
  match heap s !! l with
  | Some (Action st _) => Some st
  | _ => None
  end.

(** A node with its one mutable attribute reset; [run] changes nothing
    else in the store. *)
Definition frozen (n : node) : node :=
  match n with
  | Action _ action => Action RUNNING action
  | _ => n
  end.

(** The store up to the [_status] of its actions. *)
Definition topology (h : gmap loc node) : gmap loc node := frozen <$> h.

(** A store that is a forest: every child of a composite is allocated and
    ranks strictly below its parent, so there is no cycle. *)
Definition ranked (rank : loc -> nat) (h : gmap loc node) : Prop :=
  forall l k children,
    h !! l = Some (Composite k children) ->
    Forall (fun c => is_Some (h !! c) /\ (rank c < rank l)%nat) children.

(** A callable reached while running [self] from [s] raises [e], the
    state at that moment being [s']: either [self] is a leaf and its own
    callable raises, or [self] is a composite whose loop gets as far as a
    child in which that happens. *)
Inductive raises_in : loc -> state -> exn -> state -> Prop :=
| raises_Condition self s condition e w :
    heap s !! self = Some (Condition condition) ->
    condition (world s) = (Raise e, w) ->
    raises_in self s e (State (heap s) w (calls s ++ [self]))
| raises_Action self s st0 action e w :
    heap s !! self = Some (Action st0 action) ->
    action (world s) = (Raise e, w) ->
    raises_in self s e (State (heap s) w (calls s ++ [self]))
| raises_Fallback self s pre c post s1 e s2 :
    heap s !! self = Some (Composite Fallback (pre ++ c :: post)) ->
    all_return FAIL pre s s1 ->
    raises_in c s1 e s2 ->
    raises_in self s e s2
| raises_Sequence self s pre c post s1 e s2 :
    heap s !! self = Some (Composite Sequence (pre ++ c :: post)) ->
    all_return SUCCESS pre s s1 ->
    raises_in c s1 e s2 ->
    raises_in self s e s2.

(** A runner that keeps the topology. *)
Definition keeps_topology (rc : runner) : Prop :=
  forall c s r s', rc c s = Some (r, s') ->
                   topology (heap s') = topology (heap s).

(** Two readings of [insert_child] that the statements below measure the
    code against.  Under the first, the call with this index is refused:
    it raises and the receiver's children stay as they were.  Under the
    second, no index whatever makes the call raise. *)
Definition insert_child_refused (s : state) (self : loc) (index : Z)
    (child : loc) : Prop :=
  exists e s',
    insert_child self index child s = Some (Raise e, s')
    /\ children_of s' self = children_of s self.

Definition insert_child_never_raises (s : state) (self child : loc) : Prop :=
  forall index : Z,
    exists s', insert_child self index child s = Some (Ret self, s').

End BehaviourTree.

Arguments node W : clear implicits.
Arguments state W : clear implicits.

(** ** A small store to run things on *)

Module Demo.

(** The world counts the callable invocations made so far. *)
Definition holds (b : bool) : callable value :=
  fun w : nat => (Ret (VBool b), S w).

Definition reports (st : Status) : callable Status :=
  fun w : nat => (Ret st, S w).

(** Still under way on the first tick, done from the second on. *)
Definition moves : callable Status :=
  fun w : nat => (Ret (match w with O => RUNNING | S _ => SUCCESS end), S w).

Definition breaks : callable Status :=
  fun w : nat => (Raise (Exception "boom"), S w).

Definition cond_true : loc := 1%positive.
Definition cond_false : loc := 2%positive.
Definition act_ok : loc := 3%positive.
Definition act_boom : loc := 4%positive.
Definition act_move : loc := 5%positive.
Definition fallback3 : loc := 6%positive.
Definition sequence3 : loc := 7%positive.
Definition fallback2 : loc := 8%positive.
Definition nested : loc := 9%positive.

(** Leaves are shared between the composites, as Python allows. *)
Definition store : gmap loc (node nat) :=
  list_to_map
    [ (cond_true, Condition (holds true));
      (cond_false, Condition (holds false));
      (act_ok, Action RUNNING (reports SUCCESS));
      (act_boom, Action RUNNING breaks);
      (act_move, Action RUNNING moves);
      (fallback3, Composite Fallback [cond_false; act_ok; act_boom]);
      (sequence3, Composite Sequence [cond_true; cond_false; act_boom]);
      (fallback2, Composite Fallback [cond_false; act_boom]);
      (nested, Composite Sequence [cond_true; fallback2; act_ok]) ].

Definition init : state nat := State store O [].

(** The store once [l] has recorded the status [st]. *)
Definition recorded (l : loc) (st : Status) (a : callable Status)
    (h : gmap loc (node nat)) : gmap loc (node nat) :=
  <[l := Action st a]> h.

(** The demo store is a forest: leaves at rank 0, [nested] above the
    flat composites. *)
Definition rank (l : loc) : nat :=
  if decide (l = nested) then 2%nat
  else if decide (l = fallback3 \/ l = sequence3 \/ l = fallback2) then 1%nat
  else 0%nat.

End Demo.

(** ** Notions used to relate runs *)

Section Relating.

Context {W : Type}.

(** SUCCESS and FAIL exchanged, RUNNING kept. *)
Definition swap_status (st : Status) : Status :=
  match st with SUCCESS => FAIL | RUNNING => RUNNING | FAIL => SUCCESS end.

Definition swap_outcome (o : option (res Status * state W))
  : option (res Status * state W) :=
  match o with
  | Some (Ret st, s) => Some (Ret (swap_status st), s)
  | _ => o
  end.

(** A runner whose every answer has SUCCESS and FAIL exchanged. *)
Definition swapped (rc : @runner W) : runner :=
  fun c s => swap_outcome (rc c s).

(** A runner that only appends to the call log and changes no object but
    the leaves it logs. *)
Definition logs_its_writes (rc : @runner W) : Prop :=
  forall c s r s', rc c s = Some (r, s') ->
    exists log, calls s' = calls s ++ log
                /\ forall l, l ∉ log -> heap s' !! l = heap s !! l.

(** Two states that differ at most in the [_status] of their actions and
    in their call logs. *)
Definition alike (s1 s2 : state W) : Prop :=
  topology (heap s1) = topology (heap s2) /\ world s1 = world s2.

(** A runner that cannot tell such states apart. *)
Definition status_blind (rc : @runner W) : Prop :=
  forall c s1 s2 r s1', alike s1 s2 -> rc c s1 = Some (r, s1') ->
    exists s2' log,
      rc c s2 = Some (r, s2') /\ alike s1' s2'
      /\ calls s1' = calls s1 ++ log /\ calls s2' = calls s2 ++ log.

(** The fluent use [self.add_child(x1).add_child(x2)...]: each call is
    made on what the one before returned. *)
Fixpoint add_children (self : loc) (xs : list loc) (s : state W)
  : option (res loc * state W) :=
  match xs with
  | [] => Some (Ret self, s)
  | x :: rest =>
      match add_child self x s with
      | Some (Ret self', s') => add_children self' rest s'
      | o => o
      end
  end.

End Relating.

Module Nesting.

Import Demo.

Definition inner_fb : loc := 10%positive.
Definition outer_fb : loc := 11%positive.
Definition flat_fb : loc := 12%positive.
Definition inner_sq : loc := 13%positive.
Definition outer_sq : loc := 14%positive.
Definition flat_sq : loc := 15%positive.
Definition solo : loc := 16%positive.

(** The demo store with a fallback inside a fallback and a sequence inside
    a sequence, each beside its flattened form, and a one-child fallback. *)
Definition store : gmap loc (node nat) :=
  <[inner_fb := Composite Fallback [cond_false; act_move]]>
  (<[outer_fb := Composite Fallback [cond_false; inner_fb; act_boom]]>
  (<[flat_fb := Composite Fallback [cond_false; cond_false; act_move; act_boom]]>
  (<[inner_sq := Composite Sequence [cond_true; act_move]]>
  (<[outer_sq := Composite Sequence [cond_true; inner_sq; act_boom]]>
  (<[flat_sq := Composite Sequence [cond_true; cond_true; act_move; act_boom]]>
  (<[solo := Composite Fallback [act_move]]> Demo.store)))))).

Definition init : state nat := State store O [].

End Nesting.

(** * Properties *)

Section Properties.

Context {W : Type}.
Implicit Types (s : state W) (self child c : loc) (st : Status).
Implicit Types (rc : @runner W) (r : res Status).

(** ** Recursion depth *)

(** A loop that got an answer from every child it asked keeps its answer
    when the children are run by a runner that answers at least as often. *)
Lemma Fallback_run_ext rc rc' children s x :
  (forall c s0 y, rc c s0 = Some y -> rc' c s0 = Some y) ->
  Fallback_run rc children s = Some x ->
  Fallback_run rc' children s = Some x.
Proof.
  intros Hrc. revert s.
  induction children as [|c rest IH]; intros s; simpl; [done|].
  destruct (rc c s) as [[[st|e] s1]|] eqn:E; [| |done];
    rewrite (Hrc _ _ _ E); [|done].
  repeat case_decide; auto.
Qed.

Lemma Sequence_run_ext rc rc' children s x :
  (forall c s0 y, rc c s0 = Some y -> rc' c s0 = Some y) ->
  Sequence_run rc children s = Some x ->
  Sequence_run rc' children s = Some x.
Proof.
  intros Hrc. revert s.
  induction children as [|c rest IH]; intros s; simpl; [done|].
  destruct (rc c s) as [[[st|e] s1]|] eqn:E; [| |done];
    rewrite (Hrc _ _ _ E); [|done].
  repeat case_decide; auto.
Qed.

(** More depth never changes an answer already obtained. *)
Lemma run_S fuel self s x :
  run fuel self s = Some x -> run (S fuel) self s = Some x.
Proof.
  revert self s x.
  induction fuel as [|n IH]; intros self s x; [done|].
  intros H. cbn [run] in H |- *.
  destruct (heap s !! self) as [[[|] children|cond|st0 act]|]; try done.
  - eapply Fallback_run_ext; [|exact H]. exact IH.
  - eapply Sequence_run_ext; [|exact H]. exact IH.
Qed.

Lemma run_mono fuel fuel' self s x :
  (fuel <= fuel')%nat ->
  run fuel self s = Some x -> run fuel' self s = Some x.
Proof.
  induction 1 as [|m _ IH]; [done|].
  intros H. apply run_S. auto.
Qed.

(** [run] is a function: a call has at most one outcome. *)
Lemma returns_det self s r1 s1 r2 s2 :
  returns self s r1 s1 -> returns self s r2 s2 -> r1 = r2 /\ s1 = s2.
Proof.
  intros [n1 H1] [n2 H2].
  apply (run_mono n1 (n1 `max` n2)) in H1; [|lia].
  apply (run_mono n2 (n1 `max` n2)) in H2; [|lia].
  rewrite H1 in H2. by inversion H2.
Qed.

(** ** Children that let the loop go on *)

Lemma Fallback_run_skip pre s s1 :
  all_return FAIL pre s s1 ->
  exists n, forall m rest, (n <= m)%nat ->
    Fallback_run (run m) (pre ++ rest) s = Fallback_run (run m) rest s1.
Proof.
  induction 1 as [s|c cs s s1 s2 [f Hc] _ [n IH]].
  - exists O. done.
  - exists (f `max` n)%nat. intros m rest Hm. simpl.
    rewrite (run_mono f m c s _ ltac:(lia) Hc).
    repeat case_decide; try done. apply IH. lia.
Qed.

Lemma Sequence_run_skip pre s s1 :
  all_return SUCCESS pre s s1 ->
  exists n, forall m rest, (n <= m)%nat ->
    Sequence_run (run m) (pre ++ rest) s = Sequence_run (run m) rest s1.
Proof.
  induction 1 as [s|c cs s s1 s2 [f Hc] _ [n IH]].
  - exists O. done.
  - exists (f `max` n)%nat. intros m rest Hm. simpl.
    rewrite (run_mono f m c s _ ltac:(lia) Hc).
    repeat case_decide; try done. apply IH. lia.
Qed.

(** ** Fallback and Sequence *)

(** C1.  A Fallback whose children are [pre ++ c :: post] runs the
    children in list order, threading the state from one to the next.
    If every child of [pre] returns FAIL and [c] returns SUCCESS or
    RUNNING, then [run] returns that status in the very state [c] left
    behind, whatever [post] holds: nothing after [c] is evaluated.  If
    all children return FAIL, [run] returns FAIL after the last of them,
    and with no children it returns FAIL at once. *)
Theorem Fallback_run_first_non_fail s self children :
  heap s !! self = Some (Composite Fallback children) ->
  (forall pre c post st s1 s2,
      children = pre ++ c :: post ->
      all_return FAIL pre s s1 ->
      returns c s1 (Ret st) s2 ->
      st = SUCCESS \/ st = RUNNING ->
      returns self s (Ret st) s2)
  /\ (forall s1, all_return FAIL children s s1 ->
                 returns self s (Ret FAIL) s1)
  /\ (children = [] -> returns self s (Ret FAIL) s).
Proof.
  intros Hself. split; [|split].
  - intros pre c post st s1 s2 -> Hpre [f Hc] Hst.
    destruct (Fallback_run_skip _ _ _ Hpre) as [n Hskip].
    exists (S (n `max` f)). cbn [run]. rewrite Hself.
    rewrite Hskip by lia. simpl.
    rewrite (run_mono f (n `max` f) c s1 _ ltac:(lia) Hc).
    destruct Hst as [-> | ->]; done.
  - intros s1 Hall.
    destruct (Fallback_run_skip _ _ _ Hall) as [n Hskip].
    exists (S n). cbn [run]. rewrite Hself.
    rewrite <- (app_nil_r children), Hskip by lia. done.
  - intros ->. exists 1%nat. cbn [run]. by rewrite Hself.
Qed.

(** C2.  A Sequence whose children are [pre ++ c :: post] runs the
    children in list order, threading the state from one to the next.
    If every child of [pre] returns SUCCESS and [c] returns FAIL or
    RUNNING, then [run] returns that status in the very state [c] left
    behind, whatever [post] holds: nothing after [c] is evaluated.  If
    all children return SUCCESS, [run] returns SUCCESS after the last of
    them, and with no children it returns SUCCESS at once. *)
Theorem Sequence_run_first_non_success s self children :
  heap s !! self = Some (Composite Sequence children) ->
  (forall pre c post st s1 s2,
      children = pre ++ c :: post ->
      all_return SUCCESS pre s s1 ->
      returns c s1 (Ret st) s2 ->
      st = FAIL \/ st = RUNNING ->
      returns self s (Ret st) s2)
  /\ (forall s1, all_return SUCCESS children s s1 ->
                 returns self s (Ret SUCCESS) s1)
  /\ (children = [] -> returns self s (Ret SUCCESS) s).
Proof.
  intros Hself. split; [|split].
  - intros pre c post st s1 s2 -> Hpre [f Hc] Hst.
    destruct (Sequence_run_skip _ _ _ Hpre) as [n Hskip].
    exists (S (n `max` f)). cbn [run]. rewrite Hself.
    rewrite Hskip by lia. simpl.
    rewrite (run_mono f (n `max` f) c s1 _ ltac:(lia) Hc).
    destruct Hst as [-> | ->]; done.
  - intros s1 Hall.
    destruct (Sequence_run_skip _ _ _ Hall) as [n Hskip].
    exists (S n). cbn [run]. rewrite Hself.
    rewrite <- (app_nil_r children), Hskip by lia. done.
  - intros ->. exists 1%nat. cbn [run]. by rewrite Hself.
Qed.

(** ** What [run] leaves alone in the store *)

Lemma topology_lookup_Composite (h : gmap loc (node W)) l k children :
  topology h !! l = Some (Composite k children) <->
  h !! l = Some (Composite k children).
Proof.
  unfold topology. rewrite lookup_fmap.
  destruct (h !! l) as [[k' cs|cond|st0 act]|]; simpl; split;
    intros H; by inversion H.
Qed.

Lemma topology_is_Some (h : gmap loc (node W)) l :
  is_Some (topology h !! l) <-> is_Some (h !! l).
Proof. unfold topology. rewrite lookup_fmap. apply fmap_is_Some. Qed.

Lemma topology_set_status (h : gmap loc (node W)) l st0 st action :
  h !! l = Some (Action st0 action) ->
  topology (<[l := Action st action]> h) = topology h.
Proof.
  intros Hl. unfold topology. rewrite fmap_insert. simpl.
  apply insert_id. by rewrite lookup_fmap, Hl.
Qed.

Lemma ranked_topology rank (h h' : gmap loc (node W)) :
  topology h' = topology h -> ranked rank h -> ranked rank h'.
Proof.
  intros Heq Hr l k children Hl.
  apply (proj2 (topology_lookup_Composite _ _ _ _)) in Hl.
  rewrite Heq in Hl.
  apply (proj1 (topology_lookup_Composite _ _ _ _)) in Hl.
  eapply Forall_impl; [exact (Hr _ _ _ Hl)|].
  intros c [Hc Hlt]. split; [|done].
  apply topology_is_Some. rewrite Heq. by apply topology_is_Some.
Qed.

Lemma Fallback_run_topology rc children s r s' :
  keeps_topology rc ->
  Fallback_run rc children s = Some (r, s') ->
  topology (heap s') = topology (heap s).
Proof.
  intros Hrc. revert s.
  induction children as [|c rest IH]; intros s; simpl.
  - intros [= _ ->]. done.
  - destruct (rc c s) as [[[st|e] s1]|] eqn:E; [| |done].
    + pose proof (Hrc _ _ _ _ E) as H1.
      repeat case_decide; try (intros [= _ ->]; done).
      intros Hrest. rewrite (IH _ Hrest). done.
    + intros [= _ ->]. eauto.
Qed.

Lemma Sequence_run_topology rc children s r s' :
  keeps_topology rc ->
  Sequence_run rc children s = Some (r, s') ->
  topology (heap s') = topology (heap s).
Proof.
  intros Hrc. revert s.
  induction children as [|c rest IH]; intros s; simpl.
  - intros [= _ ->]. done.
  - destruct (rc c s) as [[[st|e] s1]|] eqn:E; [| |done].
    + pose proof (Hrc _ _ _ _ E) as H1.
      repeat case_decide; try (intros [= _ ->]; done).
      intros Hrest. rewrite (IH _ Hrest). done.
    + intros [= _ ->]. eauto.
Qed.

Lemma run_topology fuel : keeps_topology (run (W:=W) fuel).
Proof.
  induction fuel as [|n IH]; intros self s r s'; [done|].
  cbn [run].
  destruct (heap s !! self) as [[[|] children|cond|st0 act]|] eqn:Hl;
    [| | | |done].
  - by apply Fallback_run_topology.
  - by apply Sequence_run_topology.
  - unfold Condition_run, invoke.
    destruct (cond (world s)) as [[v|e] w]; intros [= _ <-]; done.
  - unfold Action_run, invoke.
    destruct (act (world s)) as [[v|e] w]; intros [= _ <-]; [|done].
    simpl. by eapply topology_set_status.
Qed.

(** ** Termination on forests *)

Lemma Fallback_run_total rank rc children s :
  keeps_topology rc ->
  (forall c s0, ranked rank (heap s0) -> is_Some (heap s0 !! c) ->
                c ∈ children -> is_Some (rc c s0)) ->
  ranked rank (heap s) ->
  Forall (fun c => is_Some (heap s !! c)) children ->
  is_Some (Fallback_run rc children s).
Proof.
  intros Hk. revert s.
  induction children as [|c rest IH]; intros s Hrc Hr Hall; simpl; [eauto|].
  apply Forall_cons in Hall as [Hc Hrest].
  destruct (Hrc c s Hr Hc) as [[[st|e] s1] E]; [set_solver| |];
    rewrite E; [|eauto].
  repeat case_decide; eauto.
  pose proof (Hk _ _ _ _ E) as Ht.
  apply IH.
  - intros c' s0 ? ? ?. apply Hrc; [done..|set_solver].
  - by eapply ranked_topology.
  - eapply Forall_impl; [exact Hrest|]. intros c' Hc'. simpl in Hc'.
    apply topology_is_Some. rewrite Ht. by apply topology_is_Some.
Qed.

Lemma Sequence_run_total rank rc children s :
  keeps_topology rc ->
  (forall c s0, ranked rank (heap s0) -> is_Some (heap s0 !! c) ->
                c ∈ children -> is_Some (rc c s0)) ->
  ranked rank (heap s) ->
  Forall (fun c => is_Some (heap s !! c)) children ->
  is_Some (Sequence_run rc children s).
Proof.
  intros Hk. revert s.
  induction children as [|c rest IH]; intros s Hrc Hr Hall; simpl; [eauto|].
  apply Forall_cons in Hall as [Hc Hrest].
  destruct (Hrc c s Hr Hc) as [[[st|e] s1] E]; [set_solver| |];
    rewrite E; [|eauto].
  repeat case_decide; eauto.
  pose proof (Hk _ _ _ _ E) as Ht.
  apply IH.
  - intros c' s0 ? ? ?. apply Hrc; [done..|set_solver].
  - by eapply ranked_topology.
  - eapply Forall_impl; [exact Hrest|]. intros c' Hc'. simpl in Hc'.
    apply topology_is_Some. rewrite Ht. by apply topology_is_Some.
Qed.

(** On a forest every allocated node's [run] comes back, returning or
    raising, once the depth allowed exceeds the node's rank. *)
Lemma run_total rank fuel self s :
  ranked rank (heap s) ->
  is_Some (heap s !! self) ->
  (rank self < fuel)%nat ->
  is_Some (run fuel self s).
Proof.
  revert self s.
  induction fuel as [|n IH]; intros self s Hr [nd Hl] Hlt; [lia|].
  cbn [run]. rewrite Hl.
  destruct nd as [[|] children|cond|st0 act]; [| |eauto..].
  - pose proof (Hr _ _ _ Hl) as Hkids.
    apply (Fallback_run_total rank); [apply run_topology| |done|].
    + intros c s0 Hr0 Hc Hin. apply IH; [done..|].
      rewrite Forall_forall in Hkids. destruct (Hkids c Hin). lia.
    + eapply Forall_impl; [exact Hkids|]. by intros c [? _].
  - pose proof (Hr _ _ _ Hl) as Hkids.
    apply (Sequence_run_total rank); [apply run_topology| |done|].
    + intros c s0 Hr0 Hc Hin. apply IH; [done..|].
      rewrite Forall_forall in Hkids. destruct (Hkids c Hin). lia.
    + eapply Forall_impl; [exact Hkids|]. by intros c [? _].
Qed.

(** C8.  Whatever a call to [run] on a Fallback or Sequence does, return
    or raise, the composite still has the same class and the same list
    of children afterwards, and so has every other composite in the
    store; no object is added to or removed from the store. *)
Theorem run_keeps_children s self k children r s' :
  heap s !! self = Some (Composite k children) ->
  returns self s r s' ->
  heap s' !! self = Some (Composite k children)
  /\ (forall l, children_of s' l = children_of s l)
  /\ dom (heap s') = dom (heap s).
Proof.
  intros Hself [fuel Hrun].
  apply run_topology in Hrun as Ht.
  assert (Hc : forall l k0 cs, heap s' !! l = Some (Composite k0 cs) <->
                               heap s !! l = Some (Composite k0 cs)).
  { intros l k0 cs.
    rewrite <- (topology_lookup_Composite (heap s')).
    rewrite <- (topology_lookup_Composite (heap s)). by rewrite Ht. }
  split; [by apply Hc|]. split.
  - intros l. unfold children_of.
    destruct (heap s' !! l) as [[k1 c1|?|? ?]|] eqn:E1.
    + apply Hc in E1. by rewrite E1.
    + destruct (heap s !! l) as [[k2 c2|?|? ?]|] eqn:E2; try done.
      apply Hc in E2. congruence.
    + destruct (heap s !! l) as [[k2 c2|?|? ?]|] eqn:E2; try done.
      apply Hc in E2. congruence.
    + destruct (heap s !! l) as [[k2 c2|?|? ?]|] eqn:E2; try done.
      apply Hc in E2. congruence.
  - apply set_eq. intros l. rewrite !elem_of_dom.
    rewrite <- (topology_is_Some (heap s')).
    rewrite <- (topology_is_Some (heap s)). by rewrite Ht.
Qed.


(** ** Leaves *)

Lemma run_Condition fuel s self condition :
  heap s !! self = Some (Condition condition) ->
  run (S fuel) self s = Some (Condition_run self condition s).
Proof. intros H. cbn [run]. by rewrite H. Qed.

Lemma run_Action fuel s self st0 action :
  heap s !! self = Some (Action st0 action) ->
  run (S fuel) self s = Some (Action_run self action s).
Proof. intros H. cbn [run]. by rewrite H. Qed.

Lemma returns_Condition s self condition r s' :
  heap s !! self = Some (Condition condition) ->
  returns self s r s' <-> Condition_run self condition s = (r, s').
Proof.
  intros H. split.
  - intros [[|n] Hrun]; [done|].
    rewrite (run_Condition _ _ _ _ H) in Hrun. by inversion Hrun.
  - intros Hrun. exists 1%nat. rewrite (run_Condition _ _ _ _ H). by f_equal.
Qed.

Lemma returns_Action s self st0 action r s' :
  heap s !! self = Some (Action st0 action) ->
  returns self s r s' <-> Action_run self action s = (r, s').
Proof.
  intros H. split.
  - intros [[|n] Hrun]; [done|].
    rewrite (run_Action _ _ _ _ _ H) in Hrun. by inversion Hrun.
  - intros Hrun. exists 1%nat. rewrite (run_Action _ _ _ _ _ H). by f_equal.
Qed.

(** C4.  Running a Condition invokes its predicate once: the call log
    grows by exactly one entry for this node and the world is the one a
    single application of the predicate produces.  When the predicate
    returns [v], [run] returns SUCCESS if [v] is truthy and FAIL if it is
    not; whatever the outcome, it is never RUNNING, and the store is left
    untouched. *)
Theorem Condition_run_truthy s self condition :
  heap s !! self = Some (Condition condition) ->
  (forall v w,
      condition (world s) = (Ret v, w) ->
      returns self s (Ret (if truthy v then SUCCESS else FAIL))
              (State (heap s) w (calls s ++ [self])))
  /\ (forall r s',
         returns self s r s' ->
         r <> Ret RUNNING
         /\ s' = State (heap s) (condition (world s)).2 (calls s ++ [self])
         /\ (r = Ret SUCCESS <->
             exists v, (condition (world s)).1 = Ret v /\ truthy v = true)
         /\ (r = Ret FAIL <->
             exists v, (condition (world s)).1 = Ret v /\ truthy v = false)).
Proof.
  intros Hself. split.
  - intros v w Hc. apply (returns_Condition _ _ _ _ _ Hself).
    unfold Condition_run, invoke. by rewrite Hc.
  - intros r s' Hr. apply (returns_Condition _ _ _ _ _ Hself) in Hr.
    unfold Condition_run, invoke in Hr.
    destruct (condition (world s)) as [[v|e] w]; simpl;
      inversion Hr; subst; clear Hr.
    + destruct (truthy v) eqn:Ht; (split; [done|]); (split; [done|]); split;
        split; try done; try (intros (v' & [= <-] & ?); congruence);
        intros _; by exists v.
    + split; [done|]. split; [done|].
      split; split; try done; intros (v' & ? & ?); done.
Qed.

(** C5.  A freshly constructed Action holds RUNNING as its status.  Each
    [run] invokes the operation once (one more entry in the call log, the
    world produced by one application), stores the status the operation
    returned in the node and returns that same status; so two calls whose
    operation answers RUNNING and then SUCCESS return RUNNING and then
    SUCCESS, the stored status following each call. *)
Theorem Action_run_stores_status self action :
  (forall s0 : state W,
      let '(l, s1) := new_Action action s0 in
      heap s0 !! l = None /\ status_of s1 l = Some RUNNING)
  /\ (forall s st0 st w,
         heap s !! self = Some (Action st0 action) ->
         action (world s) = (Ret st, w) ->
         let s' := State (<[self := Action st action]> (heap s)) w
                         (calls s ++ [self]) in
         returns self s (Ret st) s' /\ status_of s' self = Some st)
  /\ (forall s st0 w1 w2,
         heap s !! self = Some (Action st0 action) ->
         action (world s) = (Ret RUNNING, w1) ->
         action w1 = (Ret SUCCESS, w2) ->
         exists s1 s2,
           returns self s (Ret RUNNING) s1
           /\ status_of s1 self = Some RUNNING
           /\ returns self s1 (Ret SUCCESS) s2
           /\ status_of s2 self = Some SUCCESS
           /\ calls s2 = calls s ++ [self; self]).
Proof.
  assert (Hone : forall s st0 st w,
             heap s !! self = Some (Action st0 action) ->
             action (world s) = (Ret st, w) ->
             let s' := State (<[self := Action st action]> (heap s)) w
                             (calls s ++ [self]) in
             returns self s (Ret st) s' /\ status_of s' self = Some st).
  { intros s st0 st w Hself Ha. simpl. split.
    - apply (returns_Action _ _ _ _ _ _ Hself).
      unfold Action_run, invoke. by rewrite Ha.
    - unfold status_of. simpl. by rewrite lookup_insert_eq. }
  split; [|split; [exact Hone|]].
  - intros s0. unfold new_Action, alloc. simpl. split.
    + apply not_elem_of_dom. apply is_fresh.
    + unfold status_of. simpl. by rewrite lookup_insert_eq.
  - intros s st0 w1 w2 Hself H1 H2.
    destruct (Hone s st0 RUNNING w1 Hself H1) as [Hr1 Hs1].
    set (s1 := State (<[self := Action RUNNING action]> (heap s)) w1
                     (calls s ++ [self])) in *.
    assert (Hself1 : heap s1 !! self = Some (Action RUNNING action))
      by (simpl; by rewrite lookup_insert_eq).
    destruct (Hone s1 RUNNING SUCCESS w2 Hself1 H2) as [Hr2 Hs2].
    eexists s1, _. repeat split; try eassumption.
    simpl. by rewrite <- app_assoc.
Qed.

(** C10.  When the operation of an Action raises, [run] raises the same
    exception and the store is the one from before the call: the node
    still holds the status it had. *)
Theorem Action_run_raise_keeps_status s self st0 action e w :
  heap s !! self = Some (Action st0 action) ->
  action (world s) = (Raise e, w) ->
  returns self s (Raise e) (State (heap s) w (calls s ++ [self]))
  /\ (forall r s',
         returns self s r s' ->
         r = Raise e /\ heap s' = heap s /\ status_of s' self = Some st0).
Proof.
  intros Hself Ha.
  assert (Hrun : Action_run self action s
                 = (Raise e, State (heap s) w (calls s ++ [self]))).
  { unfold Action_run, invoke. by rewrite Ha. }
  split.
  - by apply (returns_Action _ _ _ _ _ _ Hself).
  - intros r s' Hr. apply (returns_Action _ _ _ _ _ _ Hself) in Hr.
    rewrite Hrun in Hr. inversion Hr; subst. simpl.
    repeat split. unfold status_of. simpl. by rewrite Hself.
Qed.

(** ** Exceptions *)

Lemma Fallback_run_Raise_inv n children s e s' :
  Fallback_run (run n) children s = Some (Raise e, s') ->
  exists pre c post s1,
    children = pre ++ c :: post
    /\ all_return FAIL pre s s1
    /\ run n c s1 = Some (Raise e, s').
Proof.
  revert s. induction children as [|c rest IH]; intros s; simpl; [done|].
  destruct (run n c s) as [[[st|e0] s1]|] eqn:E; [| |done].
  - repeat case_decide; try done.
    intros (pre & c' & post & s2 & -> & Hpre & Hc')%IH.
    exists (c :: pre), c', post, s2. repeat split; [|done].
    econstructor; [|exact Hpre]. exists n. by destruct st.
  - intros [= -> ->]. exists [], c, rest, s. repeat split; [|done].
    constructor.
Qed.

Lemma Sequence_run_Raise_inv n children s e s' :
  Sequence_run (run n) children s = Some (Raise e, s') ->
  exists pre c post s1,
    children = pre ++ c :: post
    /\ all_return SUCCESS pre s s1
    /\ run n c s1 = Some (Raise e, s').
Proof.
  revert s. induction children as [|c rest IH]; intros s; simpl; [done|].
  destruct (run n c s) as [[[st|e0] s1]|] eqn:E; [| |done].
  - repeat case_decide; try done.
    intros (pre & c' & post & s2 & -> & Hpre & Hc')%IH.
    exists (c :: pre), c', post, s2. repeat split; [|done].
    econstructor; [|exact Hpre]. exists n. by destruct st.
  - intros [= -> ->]. exists [], c, rest, s. repeat split; [|done].
    constructor.
Qed.

(** C7.  An exception raised by a wrapped callable anywhere below a node
    is exactly what that node's [run] raises: once a callable reached by
    the evaluation raises [e] in state [s'], every enclosing composite's
    [run], up to the root, raises the same [e] and leaves the same [s']
    (nothing is run afterwards, nothing is retried); and [run] raises
    nothing that has not come out of a callable in this way. *)
Theorem callable_exception_propagates self s e s' :
  raises_in self s e s' <-> returns self s (Raise e) s'.
Proof.
  split.
  - induction 1 as [self s cond e w Hself Hc|self s st0 act e w Hself Ha
                    |self s pre c post s1 e s2 Hself Hpre _ [f Hc]
                    |self s pre c post s1 e s2 Hself Hpre _ [f Hc]].
    + apply (returns_Condition _ _ _ _ _ Hself).
      unfold Condition_run, invoke. by rewrite Hc.
    + apply (returns_Action _ _ _ _ _ _ Hself).
      unfold Action_run, invoke. by rewrite Ha.
    + destruct (Fallback_run_skip _ _ _ Hpre) as [n Hskip].
      exists (S (n `max` f)). cbn [run]. rewrite Hself.
      rewrite Hskip by lia. simpl.
      by rewrite (run_mono f (n `max` f) c s1 _ ltac:(lia) Hc).
    + destruct (Sequence_run_skip _ _ _ Hpre) as [n Hskip].
      exists (S (n `max` f)). cbn [run]. rewrite Hself.
      rewrite Hskip by lia. simpl.
      by rewrite (run_mono f (n `max` f) c s1 _ ltac:(lia) Hc).
  - intros [fuel Hrun]. revert self s e s' Hrun.
    induction fuel as [|n IH]; intros self s e s' Hrun; [done|].
    cbn [run] in Hrun.
    destruct (heap s !! self) as [[[|] children|cond|st0 act]|] eqn:Hself;
      [| | | |done].
    + apply Fallback_run_Raise_inv in Hrun
        as (pre & c & post & s1 & -> & Hpre & Hc).
      eapply raises_Fallback; eauto.
    + apply Sequence_run_Raise_inv in Hrun
        as (pre & c & post & s1 & -> & Hpre & Hc).
      eapply raises_Sequence; eauto.
    + unfold Condition_run, invoke in Hrun.
      destruct (cond (world s)) as [[v|e0] w] eqn:Hc; inversion Hrun; subst.
      by eapply raises_Condition.
    + unfold Action_run, invoke in Hrun.
      destruct (act (world s)) as [[v|e0] w] eqn:Ha; inversion Hrun; subst.
      by eapply raises_Action.
Qed.


(** ** Managing children *)

Lemma as_ssize_t_fits i :
  PY_SSIZE_T_MIN <= i <= PY_SSIZE_T_MAX -> as_ssize_t i = Ret i.
Proof.
  intros [Hlo Hhi]. unfold as_ssize_t.
  apply Z.leb_le in Hlo, Hhi. by rewrite Hlo, Hhi.
Qed.

Lemma as_ssize_t_overflow i :
  ~ (PY_SSIZE_T_MIN <= i <= PY_SSIZE_T_MAX) ->
  as_ssize_t i = Raise OverflowError.
Proof.
  intros H. unfold as_ssize_t.
  destruct (Z.leb_spec PY_SSIZE_T_MIN i), (Z.leb_spec i PY_SSIZE_T_MAX);
    simpl; try done. lia.
Qed.

(** Where [list.insert] puts the item, case by case. *)
Lemma insert_position_spec n index :
  0 <= n ->
  insert_position n index =
    if decide (n < index) then n
    else if decide (index < 0) then Z.max 0 (n + index)
    else index.
Proof.
  intros Hn. unfold insert_position. cbv zeta. rewrite !Z.gtb_ltb.
  destruct (Z.ltb_spec index 0); [destruct (Z.ltb_spec (index + n) 0)|];
    match goal with
    | |- context [?a <? ?b] => destruct (Z.ltb_spec a b)
    end; repeat case_decide; lia.
Qed.

(** Putting [x] at position [p] moves the items from [p] on one place
    later and leaves the earlier ones where they were. *)
Lemma insert_at_lookup {A} (l : list A) (p : nat) (x : A) :
  (p <= length l)%nat ->
  let l' := take p l ++ x :: drop p l in
  length l' = S (length l)
  /\ l' !! p = Some x
  /\ (forall j, (j < p)%nat -> l' !! j = l !! j)
  /\ (forall j, (p <= j)%nat -> l' !! S j = l !! j).
Proof.
  intros Hp. simpl. repeat split.
  - rewrite length_app. simpl. rewrite length_take, length_drop. lia.
  - rewrite lookup_app_r; rewrite length_take; [|lia].
    replace (p - p `min` length l)%nat with O by lia. done.
  - intros j Hj. rewrite lookup_app_l by (rewrite length_take; lia).
    by rewrite lookup_take_lt.
  - intros j Hj. rewrite lookup_app_r; rewrite length_take; [|lia].
    replace (S j - p `min` length l)%nat with (S (j - p)) by lia. simpl.
    rewrite lookup_drop. f_equal. lia.
Qed.

Lemma insert_child_fits s self k children index child :
  heap s !! self = Some (Composite k children) ->
  PY_SSIZE_T_MIN <= index <= PY_SSIZE_T_MAX ->
  let p := Z.to_nat (insert_position (Z.of_nat (length children)) index) in
  insert_child self index child s =
    Some (Ret self,
          set_heap (<[self := Composite k (take p children
                                             ++ child :: drop p children)]>
                      (heap s)) s).
Proof.
  intros Hself Hfit. unfold insert_child, pylist_insert.
  by rewrite Hself, (as_ssize_t_fits _ Hfit).
Qed.

Lemma insert_child_overflow s self k children index child :
  heap s !! self = Some (Composite k children) ->
  ~ (PY_SSIZE_T_MIN <= index <= PY_SSIZE_T_MAX) ->
  insert_child self index child s = Some (Raise OverflowError, s).
Proof.
  intros Hself Hfit. unfold insert_child, pylist_insert.
  by rewrite Hself, (as_ssize_t_overflow _ Hfit).
Qed.

Lemma children_of_set_heap s self k children :
  children_of (set_heap (<[self := Composite k children]> (heap s)) s) self
  = Some children.
Proof. unfold children_of. simpl. by rewrite lookup_insert_eq. Qed.

(** C6.  On a composite holding [children], [add_child] returns the
    composite itself and leaves it holding [children ++ [child]].  With an
    index between 0 and the number of children, [insert_child] returns the
    composite itself and leaves it with one child more: the new one sits
    at [index], the children that were before [index] keep their places
    and those from [index] on are each one place later.  No other object
    of the store changes.  (A Python list never holds more than
    [PY_SSIZE_T_MAX] items, which is all the last premise says.) *)
Theorem add_insert_child_order s self k children child :
  heap s !! self = Some (Composite k children) ->
  (exists s',
      add_child self child s = Some (Ret self, s')
      /\ heap s' !! self = Some (Composite k (children ++ [child]))
      /\ (forall l, l <> self -> heap s' !! l = heap s !! l))
  /\ (forall index,
         0 <= index <= Z.of_nat (length children) ->
         Z.of_nat (length children) <= PY_SSIZE_T_MAX ->
         exists s' children',
           insert_child self index child s = Some (Ret self, s')
           /\ heap s' !! self = Some (Composite k children')
           /\ (forall l, l <> self -> heap s' !! l = heap s !! l)
           /\ children' = take (Z.to_nat index) children
                            ++ child :: drop (Z.to_nat index) children
           /\ length children' = S (length children)
           /\ children' !! Z.to_nat index = Some child
           /\ (forall j, (j < Z.to_nat index)%nat ->
                         children' !! j = children !! j)
           /\ (forall j, (Z.to_nat index <= j)%nat ->
                         children' !! S j = children !! j)).
Proof.
  intros Hself. split.
  - eexists. unfold add_child. rewrite Hself. split; [done|]. simpl.
    split; [by rewrite lookup_insert_eq|].
    intros l Hl. by rewrite lookup_insert_ne.
  - intros index Hidx Hlen.
    assert (Hfit : PY_SSIZE_T_MIN <= index <= PY_SSIZE_T_MAX)
      by (unfold PY_SSIZE_T_MIN; lia).
    eexists _, _. rewrite (insert_child_fits _ _ _ _ _ _ Hself Hfit).
    rewrite insert_position_spec by lia.
    rewrite !decide_False by lia.
    split; [done|]. simpl.
    split; [by rewrite lookup_insert_eq|].
    split; [intros l Hl; by rewrite lookup_insert_ne|].
    split; [done|].
    apply insert_at_lookup. lia.
Qed.

(** C3, as the code has it.  Take a composite holding [children] and an
    index below 0 or above the number of children.  [insert_child] never
    answers with an index-out-of-bounds error.  If the index fits a
    [Py_ssize_t] the call succeeds: the composite is returned and holds
    one child more, the new one at the clamped position (the end for an
    index above the length, [max 0 (length + index)] for a negative one).
    If the index does not fit, the call raises [OverflowError] and the
    state, children included, is what it was. *)
Theorem insert_child_out_of_range s self k children index child :
  heap s !! self = Some (Composite k children) ->
  index < 0 \/ Z.of_nat (length children) < index ->
  (forall s', insert_child self index child s <> Some (Raise IndexError, s'))
  /\ (PY_SSIZE_T_MIN <= index <= PY_SSIZE_T_MAX ->
      let p := if decide (index < 0)
               then Z.to_nat (Z.max 0 (Z.of_nat (length children) + index))
               else length children in
      exists s',
        insert_child self index child s = Some (Ret self, s')
        /\ children_of s' self
           = Some (take p children ++ child :: drop p children)
        /\ children_of s' self <> Some children)
  /\ (~ (PY_SSIZE_T_MIN <= index <= PY_SSIZE_T_MAX) ->
      insert_child self index child s = Some (Raise OverflowError, s)
      /\ children_of s self = Some children).
Proof.
  intros Hself Hout.
  destruct (decide (PY_SSIZE_T_MIN <= index <= PY_SSIZE_T_MAX)) as [Hfit|Hfit].
  - pose proof (insert_child_fits _ _ _ _ _ child Hself Hfit) as Hrun.
    rewrite insert_position_spec in Hrun by lia. simpl in Hrun.
    split; [intros s'; by rewrite Hrun|]. split; [|done].
    intros _. eexists. split; [exact Hrun|].
    rewrite children_of_set_heap.
    assert (Hp : (if decide (Z.of_nat (length children) < index)
                  then Z.of_nat (length children)
                  else if decide (index < 0)
                       then 0 `max` (Z.of_nat (length children) + index)
                       else index)
                 = Z.of_nat (if decide (index < 0)
                             then Z.to_nat (0 `max` (Z.of_nat (length children)
                                                    + index))
                             else length children)).
    { repeat case_decide; lia. }
    rewrite Hp, Nat2Z.id. split; [done|].
    intros [= Heq]. apply (f_equal length) in Heq.
    rewrite length_app in Heq. simpl in Heq.
    rewrite length_take, length_drop in Heq. lia.
  - pose proof (insert_child_overflow _ _ _ _ _ child Hself Hfit) as Hrun.
    split; [intros s'; by rewrite Hrun|]. split; [done|].
    intros _. split; [done|]. unfold children_of. by rewrite Hself.
Qed.

(** C9, as the code has it.  Take a composite holding [children] and any
    index that fits a [Py_ssize_t].  [insert_child] does not raise and
    returns the composite, which then holds the new child at the position
    [list.insert] clamps to: the end when the index is above the number of
    children, the front when a negative index reaches past it, and counted
    from the end for the other negative indices. *)
Theorem insert_child_clamps s self k children index child :
  heap s !! self = Some (Composite k children) ->
  PY_SSIZE_T_MIN <= index <= PY_SSIZE_T_MAX ->
  let n := Z.of_nat (length children) in
  let p := Z.to_nat (if decide (n < index) then n
                     else if decide (index < 0) then Z.max 0 (n + index)
                     else index) in
  exists s',
    insert_child self index child s = Some (Ret self, s')
    /\ children_of s' self = Some (take p children ++ child :: drop p children)
    /\ (n < index -> children_of s' self = Some (children ++ [child]))
    /\ (n + index <= 0 -> children_of s' self = Some (child :: children)).
Proof.
  intros Hself Hfit n p.
  pose proof (insert_child_fits _ _ _ _ _ child Hself Hfit) as Hrun.
  rewrite insert_position_spec in Hrun by lia. simpl in Hrun.
  eexists. split; [exact Hrun|].
  rewrite children_of_set_heap. fold n. fold p.
  split; [done|]. split.
  - intros Hbig.
    assert (Hp : p = length children).
    { subst p. rewrite decide_True by done. subst n. apply Nat2Z.id. }
    rewrite Hp, take_ge, drop_ge by lia. done.
  - intros Hsmall.
    assert (Hp : p = O) by (subst p; repeat case_decide; lia).
    by rewrite Hp.
Qed.


End Properties.

(** * Runs on the demo store *)

Import Demo.

Lemma store_ranked : ranked rank store.
Proof.
  intros l k children Hl.
  apply elem_of_list_to_map_2 in Hl.
  repeat (apply elem_of_cons in Hl as [Heq|Hl];
          [try discriminate Heq; injection Heq as -> -> ->;
           repeat (constructor;
                   [split; [eexists; reflexivity|vm_compute; lia]|]);
           constructor|]).
  by apply elem_of_nil in Hl.
Qed.

Example nested_run_comes_back : is_Some (run 3 nested init).
Proof.
  apply (run_total rank); [exact store_ranked|by eexists|vm_compute; lia].
Qed.

(** Fallback([Condition(false), Action(->SUCCESS)]): SUCCESS, the action's
    operation invoked exactly once (and the third child not at all). *)
Example scenario_fallback_tries_next :
  exists s',
    run 2 fallback3 init = Some (Ret SUCCESS, s')
    /\ calls s' = [cond_false; act_ok]
    /\ status_of s' act_ok = Some SUCCESS.
Proof. eexists. repeat split; reflexivity. Qed.

(** Sequence([Condition(true), Condition(false), Action]): FAIL, the
    action's operation never invoked. *)
Example scenario_sequence_stops_at_fail :
  exists s',
    run 2 sequence3 init = Some (Ret FAIL, s')
    /\ calls s' = [cond_true; cond_false]
    /\ act_boom ∉ calls s'.
Proof.
  eexists. repeat split; try reflexivity.
  simpl. intros H. repeat (apply elem_of_cons in H as [H|H]; [done|]).
  by apply elem_of_nil in H.
Qed.

(** Sequence([Action(->RUNNING), Action(->SUCCESS)]): RUNNING, the second
    action never invoked.  The sequence is built through the fluent
    interface on top of the demo store. *)
Example scenario_sequence_pauses_at_running :
  let '(seq, s0) := new_Composite Sequence init in
  exists s1 s2 s3,
    add_child seq act_move s0 = Some (Ret seq, s1)
    /\ add_child seq act_ok s1 = Some (Ret seq, s2)
    /\ children_of s2 seq = Some [act_move; act_ok]
    /\ run 2 seq s2 = Some (Ret RUNNING, s3)
    /\ calls s3 = [act_move].
Proof. simpl. eexists _, _, _. repeat split; reflexivity. Qed.

(** The three-child fallback: the condition fails, the action succeeds,
    the raising action behind it is never reached. *)
Lemma Fallback_run_first_non_fail_witness :
  heap init !! fallback3
  = Some (Composite Fallback [cond_false; act_ok; act_boom])
  /\ returns fallback3 init (Ret SUCCESS)
             (State (recorded act_ok SUCCESS (reports SUCCESS) store)
                    2%nat [cond_false; act_ok]).
Proof.
  split; [reflexivity|].
  destruct (Fallback_run_first_non_fail init fallback3 _ eq_refl) as [H _].
  apply (H [cond_false] act_ok [act_boom] SUCCESS
           (State store 1%nat [cond_false])).
  - reflexivity.
  - econstructor; [|constructor]. exists 1%nat. reflexivity.
  - exists 1%nat. reflexivity.
  - left. reflexivity.
Defined.

(** The three-child sequence: the second condition fails and ends it. *)
Lemma Sequence_run_first_non_success_witness :
  heap init !! sequence3
  = Some (Composite Sequence [cond_true; cond_false; act_boom])
  /\ returns sequence3 init (Ret FAIL)
             (State store 2%nat [cond_true; cond_false]).
Proof.
  split; [reflexivity|].
  destruct (Sequence_run_first_non_success init sequence3 _ eq_refl)
    as [H _].
  apply (H [cond_true] cond_false [act_boom] FAIL
           (State store 1%nat [cond_true])).
  - reflexivity.
  - econstructor; [|constructor]. exists 1%nat. reflexivity.
  - exists 1%nat. reflexivity.
  - left. reflexivity.
Defined.

(** Index 5 on two children: accepted, the child goes to the end. *)
Lemma insert_child_out_of_range_witness :
  heap init !! fallback2 = Some (Composite Fallback [cond_false; act_boom])
  /\ (5 < 0 \/ Z.of_nat (length [cond_false; act_boom]) < 5)
  /\ exists s',
       insert_child fallback2 5 act_ok init = Some (Ret fallback2, s')
       /\ children_of s' fallback2 = Some [cond_false; act_boom; act_ok].
Proof.
  assert (Hout : 5 < 0 \/ Z.of_nat (length [cond_false; act_boom]) < 5)
    by (right; simpl; lia).
  split; [reflexivity|]. split; [exact Hout|].
  destruct (insert_child_out_of_range init fallback2 Fallback
              [cond_false; act_boom] 5 act_ok eq_refl Hout) as (_ & H & _).
  destruct H as (s' & H1 & H2 & _);
    [unfold PY_SSIZE_T_MIN, PY_SSIZE_T_MAX; lia|].
  exists s'. split; [exact H1|exact H2].
Defined.

(** [insert_child(5, c)] on a composite with two children is not refused:
    it returns the composite, now with three children. *)
Lemma insert_child_past_end_accepted :
  Z.of_nat (length [cond_false; act_boom]) < 5
  /\ children_of init fallback2 = Some [cond_false; act_boom]
  /\ (exists s',
         insert_child fallback2 5 act_ok init = Some (Ret fallback2, s')
         /\ children_of s' fallback2 = Some [cond_false; act_boom; act_ok])
  /\ ~ insert_child_refused init fallback2 5 act_ok.
Proof.
  split; [simpl; lia|]. split; [reflexivity|]. split.
  - eexists. split; reflexivity.
  - intros (e & s' & H & _). vm_compute in H. discriminate H.
Qed.

(** A predicate answering [True]: SUCCESS after one invocation. *)
Lemma Condition_run_truthy_witness :
  heap init !! cond_true = Some (Condition (holds true))
  /\ returns cond_true init (Ret SUCCESS) (State store 1%nat [cond_true]).
Proof.
  split; [reflexivity|].
  destruct (Condition_run_truthy init cond_true (holds true) eq_refl)
    as [H _].
  exact (H (VBool true) 1%nat eq_refl).
Defined.

(** Two ticks of an action that is under way, then done. *)
Lemma Action_run_stores_status_witness :
  status_of init act_move = Some RUNNING
  /\ exists s1 s2,
       returns act_move init (Ret RUNNING) s1
       /\ status_of s1 act_move = Some RUNNING
       /\ returns act_move s1 (Ret SUCCESS) s2
       /\ status_of s2 act_move = Some SUCCESS
       /\ calls s2 = [act_move; act_move].
Proof.
  split; [reflexivity|].
  destruct (Action_run_stores_status (W:=nat) act_move moves) as (_ & _ & H).
  exact (H init RUNNING 1%nat 2%nat eq_refl eq_refl eq_refl).
Defined.

(** On children [A; B]: appending C gives [A; B; C], inserting C at 0
    gives [C; A; B]. *)
Lemma add_insert_child_order_witness :
  children_of init fallback2 = Some [cond_false; act_boom]
  /\ (exists s',
         add_child fallback2 act_ok init = Some (Ret fallback2, s')
         /\ children_of s' fallback2 = Some [cond_false; act_boom; act_ok])
  /\ (exists s',
         insert_child fallback2 0 act_ok init = Some (Ret fallback2, s')
         /\ children_of s' fallback2 = Some [act_ok; cond_false; act_boom]).
Proof.
  split; [reflexivity|].
  destruct (add_insert_child_order init fallback2 Fallback
              [cond_false; act_boom] act_ok eq_refl) as [Hadd Hins].
  split.
  - destruct Hadd as (s' & H1 & H2 & _). exists s'. split; [exact H1|].
    unfold children_of. rewrite H2. reflexivity.
  - destruct (Hins 0) as (s' & cs & H1 & H2 & _ & H3 & _);
      [simpl; lia|unfold PY_SSIZE_T_MAX; simpl; lia|].
    exists s'. split; [exact H1|].
    unfold children_of. rewrite H2, H3. reflexivity.
Defined.

(** An action two composites down raises; the root raises the same. *)
Lemma callable_exception_propagates_witness :
  returns nested init (Raise (Exception "boom"))
          (State store 3%nat [cond_true; cond_false; act_boom]).
Proof.
  apply (proj1 (callable_exception_propagates nested init _ _)).
  apply (raises_Sequence nested init [cond_true] fallback2 [act_ok]
           (State store 1%nat [cond_true])).
  - reflexivity.
  - econstructor; [|constructor]. exists 1%nat. reflexivity.
  - apply (raises_Fallback fallback2 _ [cond_false] act_boom []
             (State store 2%nat [cond_true; cond_false])).
    + reflexivity.
    + econstructor; [|constructor]. exists 1%nat. reflexivity.
    + exact (raises_Action act_boom
               (State store 2%nat [cond_true; cond_false])
               RUNNING breaks (Exception "boom") 3%nat eq_refl eq_refl).
Defined.

(** After its run the fallback holds the children it held before. *)
Lemma run_keeps_children_witness :
  heap init !! fallback3
  = Some (Composite Fallback [cond_false; act_ok; act_boom])
  /\ children_of (State (recorded act_ok SUCCESS (reports SUCCESS) store)
                        2%nat [cond_false; act_ok]) fallback3
     = Some [cond_false; act_ok; act_boom].
Proof.
  split; [reflexivity|].
  destruct (run_keeps_children init fallback3 Fallback
              [cond_false; act_ok; act_boom] (Ret SUCCESS)
              (State (recorded act_ok SUCCESS (reports SUCCESS) store)
                     2%nat [cond_false; act_ok]) eq_refl) as (H & _).
  - exists 2%nat. reflexivity.
  - unfold children_of. rewrite H. reflexivity.
Defined.

(** Index -1 on two children: the child goes before the last one. *)
Lemma insert_child_clamps_witness :
  heap init !! fallback2 = Some (Composite Fallback [cond_false; act_boom])
  /\ PY_SSIZE_T_MIN <= -1 <= PY_SSIZE_T_MAX
  /\ exists s',
       insert_child fallback2 (-1) act_ok init = Some (Ret fallback2, s')
       /\ children_of s' fallback2 = Some [cond_false; act_ok; act_boom].
Proof.
  assert (Hfit : PY_SSIZE_T_MIN <= -1 <= PY_SSIZE_T_MAX)
    by (unfold PY_SSIZE_T_MIN, PY_SSIZE_T_MAX; lia).
  split; [reflexivity|]. split; [exact Hfit|].
  destruct (insert_child_clamps init fallback2 Fallback
              [cond_false; act_boom] (-1) act_ok eq_refl Hfit)
    as (s' & H1 & H2 & _).
  exists s'. split; [exact H1|exact H2].
Defined.

(** [insert_child(2**63, c)] raises [OverflowError] and changes nothing. *)
Lemma insert_child_huge_index_overflows :
  insert_child fallback2 (2 ^ 63) act_ok init
  = Some (Raise OverflowError, init)
  /\ ~ insert_child_never_raises init fallback2 act_ok.
Proof.
  assert (H : insert_child fallback2 (2 ^ 63) act_ok init
              = Some (Raise OverflowError, init)) by reflexivity.
  split; [exact H|].
  intros Hall. destruct (Hall (2 ^ 63)) as [s' Hs']. congruence.
Qed.

(** A raising operation leaves the action's status at RUNNING. *)
Lemma Action_run_raise_keeps_status_witness :
  status_of init act_boom = Some RUNNING
  /\ returns act_boom init (Raise (Exception "boom"))
             (State store 1%nat [act_boom])
  /\ status_of (State store 1%nat [act_boom]) act_boom = Some RUNNING.
Proof.
  split; [reflexivity|].
  destruct (Action_run_raise_keeps_status init act_boom RUNNING breaks
              (Exception "boom") 1%nat eq_refl eq_refl) as [H1 H2].
  split; [exact H1|]. exact (proj2 (proj2 (H2 _ _ H1))).
Defined.

(** * Further properties *)

Section MoreProperties.

Context {W : Type}.
Implicit Types (s : state W) (self child c : loc) (st : Status).
Implicit Types (rc : @runner W) (r : res Status).

(** ** Reading an outcome backwards *)

Lemma Fallback_run_Ret_inv n children s st s' :
  Fallback_run (run n) children s = Some (Ret st, s') ->
  (st = FAIL /\ all_return FAIL children s s')
  \/ (st <> FAIL /\ exists pre c post s1,
         children = pre ++ c :: post
         /\ all_return FAIL pre s s1
         /\ run n c s1 = Some (Ret st, s')).
Proof.
  revert s. induction children as [|c rest IH]; intros s; simpl.
  - intros [= <- <-]. left. split; [done|constructor].
  - destruct (run n c s) as [[[st0|e0] s1]|] eqn:E; [| |done]; [|done].
    repeat case_decide; subst.
    + intros [= <- <-]. right. split; [done|].
      exists [], c, rest, s. repeat split; [constructor|done].
    + intros [= <- <-]. right. split; [done|].
      exists [], c, rest, s. repeat split; [constructor|done].
    + assert (st0 = FAIL) as -> by (by destruct st0).
      intros [[-> Hall]|[Hne (pre & c' & post & s2 & -> & Hpre & Hc')]]%IH.
      * left. split; [done|]. econstructor; [by exists n|done].
      * right. split; [done|]. exists (c :: pre), c', post, s2.
        repeat split; [|done]. econstructor; [by exists n|done].
Qed.

Lemma Sequence_run_Ret_inv n children s st s' :
  Sequence_run (run n) children s = Some (Ret st, s') ->
  (st = SUCCESS /\ all_return SUCCESS children s s')
  \/ (st <> SUCCESS /\ exists pre c post s1,
         children = pre ++ c :: post
         /\ all_return SUCCESS pre s s1
         /\ run n c s1 = Some (Ret st, s')).
Proof.
  revert s. induction children as [|c rest IH]; intros s; simpl.
  - intros [= <- <-]. left. split; [done|constructor].
  - destruct (run n c s) as [[[st0|e0] s1]|] eqn:E; [| |done]; [|done].
    repeat case_decide; subst.
    + intros [= <- <-]. right. split; [done|].
      exists [], c, rest, s. repeat split; [constructor|done].
    + intros [= <- <-]. right. split; [done|].
      exists [], c, rest, s. repeat split; [constructor|done].
    + assert (st0 = SUCCESS) as -> by (by destruct st0).
      intros [[-> Hall]|[Hne (pre & c' & post & s2 & -> & Hpre & Hc')]]%IH.
      * left. split; [done|]. econstructor; [by exists n|done].
      * right. split; [done|]. exists (c :: pre), c', post, s2.
        repeat split; [|done]. econstructor; [by exists n|done].
Qed.

(** X1.  Whatever a Fallback's [run] gives back has exactly one
    explanation.  FAIL: every child was run, in list order, and returned
    FAIL.  SUCCESS or RUNNING: one child returned it after all the
    children before it had returned FAIL.  An exception: one child raised
    it after all the children before it had returned FAIL.  In the last
    two cases the final state is the one that child left. *)
Theorem Fallback_run_outcome s self children r s' :
  heap s !! self = Some (Composite Fallback children) ->
  returns self s r s' ->
  match r with
  | Ret FAIL => all_return FAIL children s s'
  | _ => exists pre c post s1,
           children = pre ++ c :: post
           /\ all_return FAIL pre s s1
           /\ returns c s1 r s'
  end.
Proof.
  intros Hself [[|n] Hrun]; [done|]. cbn [run] in Hrun. rewrite Hself in Hrun.
  destruct r as [st|e].
  - apply Fallback_run_Ret_inv in Hrun
      as [[-> Hall]|[Hne (pre & c & post & s1 & -> & Hpre & Hc)]]; [done|].
    assert (exists pre0 c0 post0 s0,
               pre ++ c :: post = pre0 ++ c0 :: post0
               /\ all_return FAIL pre0 s s0
               /\ returns c0 s0 (Ret st) s') as H.
    { exists pre, c, post, s1. repeat split; [done|by exists n]. }
    by destruct st.
  - apply Fallback_run_Raise_inv in Hrun
      as (pre & c & post & s1 & -> & Hpre & Hc).
    exists pre, c, post, s1. repeat split; [done|by exists n].
Qed.

(** X2.  Whatever a Sequence's [run] gives back has exactly one
    explanation.  SUCCESS: every child was run, in list order, and
    returned SUCCESS.  FAIL or RUNNING: one child returned it after all
    the children before it had returned SUCCESS.  An exception: one child
    raised it after all the children before it had returned SUCCESS.  In
    the last two cases the final state is the one that child left. *)
Theorem Sequence_run_outcome s self children r s' :
  heap s !! self = Some (Composite Sequence children) ->
  returns self s r s' ->
  match r with
  | Ret SUCCESS => all_return SUCCESS children s s'
  | _ => exists pre c post s1,
           children = pre ++ c :: post
           /\ all_return SUCCESS pre s s1
           /\ returns c s1 r s'
  end.
Proof.
  intros Hself [[|n] Hrun]; [done|]. cbn [run] in Hrun. rewrite Hself in Hrun.
  destruct r as [st|e].
  - apply Sequence_run_Ret_inv in Hrun
      as [[-> Hall]|[Hne (pre & c & post & s1 & -> & Hpre & Hc)]]; [done|].
    assert (exists pre0 c0 post0 s0,
               pre ++ c :: post = pre0 ++ c0 :: post0
               /\ all_return SUCCESS pre0 s s0
               /\ returns c0 s0 (Ret st) s') as H.
    { exists pre, c, post, s1. repeat split; [done|by exists n]. }
    by destruct st.
  - apply Sequence_run_Raise_inv in Hrun
      as (pre & c & post & s1 & -> & Hpre & Hc).
    exists pre, c, post, s1. repeat split; [done|by exists n].
Qed.

(** X3.  The loop of [Sequence.run] is the loop of [Fallback.run] with
    SUCCESS and FAIL exchanged: run over children whose every answer is
    exchanged, a Fallback gives the exchanged answer of the Sequence, in
    the same state, RUNNING and exceptions passing through as they are. *)
Theorem Sequence_run_dual rc children s :
  Sequence_run rc children s
  = swap_outcome (Fallback_run (swapped rc) children s).
Proof.
  revert s. induction children as [|c rest IH]; intros s; simpl; [done|].
  unfold swapped at 1.
  destruct (rc c s) as [[[[]|e] s1]|]; simpl; try done; try apply IH.
Qed.

(** X4.  A composite of either class with exactly one child behaves as
    that child: its [run] returns what the child's [run] returns, or
    raises what it raises, and leaves the same state. *)
Theorem single_child_transparent s self k c r s' :
  heap s !! self = Some (Composite k [c]) ->
  returns self s r s' <-> returns c s r s'.
Proof.
  intros Hself. split.
  - intros [[|n] Hrun]; [done|]. exists n.
    cbn [run] in Hrun. rewrite Hself in Hrun.
    destruct k; simpl in Hrun;
      destruct (run n c s) as [[[[]|e] s1]|]; simpl in Hrun; done.
  - intros [n Hrun]. exists (S n). cbn [run]. rewrite Hself.
    destruct k; simpl; rewrite Hrun; by destruct r as [[]|].
Qed.

Lemma Fallback_run_app rc xs ys s :
  Fallback_run rc (xs ++ ys) s =
    match Fallback_run rc xs s with
    | Some (Ret FAIL, s1) => Fallback_run rc ys s1
    | o => o
    end.
Proof.
  revert s. induction xs as [|x xs IH]; intros s; simpl; [done|].
  destruct (rc x s) as [[[[]|e] s1]|]; simpl; try done; try apply IH.
Qed.

Lemma Sequence_run_app rc xs ys s :
  Sequence_run rc (xs ++ ys) s =
    match Sequence_run rc xs s with
    | Some (Ret SUCCESS, s1) => Sequence_run rc ys s1
    | o => o
    end.
Proof.
  revert s. induction xs as [|x xs IH]; intros s; simpl; [done|].
  destruct (rc x s) as [[[[]|e] s1]|]; simpl; try done; try apply IH.
Qed.

Lemma run_Fallback n s self children :
  heap s !! self = Some (Composite Fallback children) ->
  run (S n) self s = Fallback_run (run n) children s.
Proof. intros H. cbn [run]. by rewrite H. Qed.

Lemma run_Sequence n s self children :
  heap s !! self = Some (Composite Sequence children) ->
  run (S n) self s = Sequence_run (run n) children s.
Proof. intros H. cbn [run]. by rewrite H. Qed.

(** X5.  A Fallback among the children of a Fallback can be replaced by
    its own children, in place: the nested and the flattened composite
    return or raise the same and leave the same state. *)
Theorem Fallback_flatten s outer inner flat pre ys post r s' :
  heap s !! outer = Some (Composite Fallback (pre ++ inner :: post)) ->
  heap s !! inner = Some (Composite Fallback ys) ->
  heap s !! flat = Some (Composite Fallback (pre ++ ys ++ post)) ->
  returns outer s r s' <-> returns flat s r s'.
Proof.
  intros Houter Hinner Hflat.
  assert (Hin : forall m o s1,
             Fallback_run (run m) pre s = Some (o, s1) ->
             heap s1 !! inner = Some (Composite Fallback ys)).
  { intros m o s1 Hpre.
    apply Fallback_run_topology in Hpre; [|apply run_topology].
    apply topology_lookup_Composite. rewrite Hpre.
    by apply topology_lookup_Composite. }
  split.
  - intros [[|m] Hrun]; [done|]. exists (S m).
    rewrite (run_Fallback _ _ _ _ Houter) in Hrun.
    rewrite (run_Fallback _ _ _ _ Hflat).
    rewrite Fallback_run_app in Hrun. rewrite Fallback_run_app.
    destruct (Fallback_run (run m) pre s) as [[[[]|e] s1]|] eqn:Hpre;
      try done.
    specialize (Hin _ _ _ Hpre).
    simpl in Hrun. destruct m as [|m]; [done|].
    rewrite (run_Fallback _ _ _ _ Hin) in Hrun.
    rewrite Fallback_run_app.
    destruct (Fallback_run (run m) ys s1) as [[[st|e] s2]|] eqn:Hys;
      [| |done].
    + rewrite (Fallback_run_ext _ (run (S m)) _ _ _ (run_S m) Hys).
      by destruct st.
    + rewrite (Fallback_run_ext _ (run (S m)) _ _ _ (run_S m) Hys). done.
  - intros [[|m] Hrun]; [done|]. exists (S (S m)).
    rewrite (run_Fallback _ _ _ _ Hflat) in Hrun.
    rewrite (run_Fallback _ _ _ _ Houter).
    rewrite Fallback_run_app in Hrun. rewrite Fallback_run_app.
    destruct (Fallback_run (run m) pre s) as [[o s1]|] eqn:Hpre; [|done].
    specialize (Hin _ _ _ Hpre).
    rewrite (Fallback_run_ext _ (run (S m)) _ _ _ (run_S m) Hpre).
    destruct o as [[]|e]; try done.
    rewrite Fallback_run_app in Hrun.
    cbn [Fallback_run]. rewrite (run_Fallback _ _ _ _ Hin).
    destruct (Fallback_run (run m) ys s1) as [[[st|e] s2]|] eqn:Hys;
      [| |done].
    + destruct st; try done. simpl.
      by apply (Fallback_run_ext _ (run (S m)) _ _ _ (run_S m)).
    + done.
Qed.

(** X6.  A Sequence among the children of a Sequence can be replaced by
    its own children, in place: the nested and the flattened composite
    return or raise the same and leave the same state. *)
Theorem Sequence_flatten s outer inner flat pre ys post r s' :
  heap s !! outer = Some (Composite Sequence (pre ++ inner :: post)) ->
  heap s !! inner = Some (Composite Sequence ys) ->
  heap s !! flat = Some (Composite Sequence (pre ++ ys ++ post)) ->
  returns outer s r s' <-> returns flat s r s'.
Proof.
  intros Houter Hinner Hflat.
  assert (Hin : forall m o s1,
             Sequence_run (run m) pre s = Some (o, s1) ->
             heap s1 !! inner = Some (Composite Sequence ys)).
  { intros m o s1 Hpre.
    apply Sequence_run_topology in Hpre; [|apply run_topology].
    apply topology_lookup_Composite. rewrite Hpre.
    by apply topology_lookup_Composite. }
  split.
  - intros [[|m] Hrun]; [done|]. exists (S m).
    rewrite (run_Sequence _ _ _ _ Houter) in Hrun.
    rewrite (run_Sequence _ _ _ _ Hflat).
    rewrite Sequence_run_app in Hrun. rewrite Sequence_run_app.
    destruct (Sequence_run (run m) pre s) as [[[[]|e] s1]|] eqn:Hpre;
      try done.
    specialize (Hin _ _ _ Hpre).
    simpl in Hrun. destruct m as [|m]; [done|].
    rewrite (run_Sequence _ _ _ _ Hin) in Hrun.
    rewrite Sequence_run_app.
    destruct (Sequence_run (run m) ys s1) as [[[st|e] s2]|] eqn:Hys;
      [| |done].
    + rewrite (Sequence_run_ext _ (run (S m)) _ _ _ (run_S m) Hys).
      by destruct st.
    + rewrite (Sequence_run_ext _ (run (S m)) _ _ _ (run_S m) Hys). done.
  - intros [[|m] Hrun]; [done|]. exists (S (S m)).
    rewrite (run_Sequence _ _ _ _ Hflat) in Hrun.
    rewrite (run_Sequence _ _ _ _ Houter).
    rewrite Sequence_run_app in Hrun. rewrite Sequence_run_app.
    destruct (Sequence_run (run m) pre s) as [[o s1]|] eqn:Hpre; [|done].
    specialize (Hin _ _ _ Hpre).
    rewrite (Sequence_run_ext _ (run (S m)) _ _ _ (run_S m) Hpre).
    destruct o as [[]|e]; try done.
    rewrite Sequence_run_app in Hrun.
    cbn [Sequence_run]. rewrite (run_Sequence _ _ _ _ Hin).
    destruct (Sequence_run (run m) ys s1) as [[[st|e] s2]|] eqn:Hys;
      [| |done].
    + destruct st; try done. simpl.
      by apply (Sequence_run_ext _ (run (S m)) _ _ _ (run_S m)).
    + done.
Qed.

Lemma Fallback_run_logs rc children : 
  logs_its_writes rc -> logs_its_writes (fun _ => Fallback_run rc children).
Proof.
  intros Hrc _ s r s'. revert s.
  induction children as [|c rest IH]; intros s; simpl.
  - intros [= _ <-]. exists []. split; [by rewrite app_nil_r|done].
  - destruct (rc c s) as [[[st|e] s1]|] eqn:E; [| |done];
      destruct (Hrc _ _ _ _ E) as (log1 & Hlog1 & Hfr1).
    + repeat case_decide; try (intros [= _ <-]; by exists log1).
      intros (log2 & Hlog2 & Hfr2)%IH. exists (log1 ++ log2). split.
      * by rewrite Hlog2, Hlog1, app_assoc.
      * intros l Hl. rewrite not_elem_of_app in Hl. destruct Hl.
        rewrite Hfr2, Hfr1; done.
    + intros [= _ <-]. by exists log1.
Qed.

Lemma Sequence_run_logs rc children : 
  logs_its_writes rc -> logs_its_writes (fun _ => Sequence_run rc children).
Proof.
  intros Hrc _ s r s'. revert s.
  induction children as [|c rest IH]; intros s; simpl.
  - intros [= _ <-]. exists []. split; [by rewrite app_nil_r|done].
  - destruct (rc c s) as [[[st|e] s1]|] eqn:E; [| |done];
      destruct (Hrc _ _ _ _ E) as (log1 & Hlog1 & Hfr1).
    + repeat case_decide; try (intros [= _ <-]; by exists log1).
      intros (log2 & Hlog2 & Hfr2)%IH. exists (log1 ++ log2). split.
      * by rewrite Hlog2, Hlog1, app_assoc.
      * intros l Hl. rewrite not_elem_of_app in Hl. destruct Hl.
        rewrite Hfr2, Hfr1; done.
    + intros [= _ <-]. by exists log1.
Qed.

Lemma run_logs fuel : logs_its_writes (run (W:=W) fuel).
Proof.
  induction fuel as [|n IH]; intros self s r s'; [done|].
  cbn [run].
  destruct (heap s !! self) as [[[|] children|cond|st0 act]|] eqn:Hl;
    [| | | |done].
  - by apply (Fallback_run_logs _ children IH self).
  - by apply (Sequence_run_logs _ children IH self).
  - unfold Condition_run, invoke.
    destruct (cond (world s)) as [[v|e] w]; intros [= _ <-];
      by exists [self].
  - unfold Action_run, invoke.
    destruct (act (world s)) as [[v|e] w]; intros [= _ <-];
      exists [self]; (split; [done|]); [|done].
    intros l Hnl. simpl. apply lookup_insert_ne. set_solver.
Qed.

(** X7.  A [run], returning or raising, only appends to the record of
    callable invocations; every object whose callable it did not invoke is
    exactly what it was, and an object it did invoke the callable of keeps
    its class, its children and its callable: only the [_status] of
    invoked Actions can differ. *)
Theorem run_writes_only_invoked_leaves s self r s' :
  returns self s r s' ->
  exists log,
    calls s' = calls s ++ log
    /\ (forall l, l ∉ log -> heap s' !! l = heap s !! l)
    /\ (forall l, frozen <$> heap s' !! l = frozen <$> heap s !! l).
Proof.
  intros [fuel Hrun].
  destruct (run_logs _ _ _ _ _ Hrun) as (log & Hlog & Hfr).
  exists log. split; [done|]. split; [done|].
  intros l. apply run_topology in Hrun. unfold topology in Hrun.
  by rewrite <- !lookup_fmap, Hrun.
Qed.

Lemma topology_lookup (h1 h2 : gmap loc (node W)) l n1 :
  topology h1 = topology h2 ->
  h1 !! l = Some n1 ->
  exists n2, h2 !! l = Some n2 /\ frozen n2 = frozen n1.
Proof.
  intros Heq Hl. apply (f_equal (.!! l)) in Heq. unfold topology in Heq.
  rewrite !lookup_fmap, Hl in Heq. simpl in Heq.
  destruct (h2 !! l) as [n2|]; [|done]. exists n2. split; [done|].
  by inversion Heq.
Qed.

Lemma Fallback_run_blind rc children :
  status_blind rc -> status_blind (fun _ => Fallback_run rc children).
Proof.
  intros Hrc _ s1 s2 r s1'. revert s1 s2.
  induction children as [|c rest IH]; intros s1 s2 Hal; simpl.
  - intros [= <- <-]. exists s2, []. by rewrite !app_nil_r.
  - destruct (rc c s1) as [[[st|e] t1]|] eqn:E; [| |done];
      destruct (Hrc _ _ _ _ _ Hal E) as (t2 & log1 & -> & Hal1 & Hl1 & Hl2).
    + repeat case_decide; try (intros [= <- <-]; by exists t2, log1).
      intros (s2' & log2 & Hr & Hal2 & Hl3 & Hl4)%(IH _ _ Hal1).
      exists s2', (log1 ++ log2). rewrite Hr, Hl3, Hl4, Hl1, Hl2.
      by rewrite !app_assoc.
    + intros [= <- <-]. by exists t2, log1.
Qed.

Lemma Sequence_run_blind rc children :
  status_blind rc -> status_blind (fun _ => Sequence_run rc children).
Proof.
  intros Hrc _ s1 s2 r s1'. revert s1 s2.
  induction children as [|c rest IH]; intros s1 s2 Hal; simpl.
  - intros [= <- <-]. exists s2, []. by rewrite !app_nil_r.
  - destruct (rc c s1) as [[[st|e] t1]|] eqn:E; [| |done];
      destruct (Hrc _ _ _ _ _ Hal E) as (t2 & log1 & -> & Hal1 & Hl1 & Hl2).
    + repeat case_decide; try (intros [= <- <-]; by exists t2, log1).
      intros (s2' & log2 & Hr & Hal2 & Hl3 & Hl4)%(IH _ _ Hal1).
      exists s2', (log1 ++ log2). rewrite Hr, Hl3, Hl4, Hl1, Hl2.
      by rewrite !app_assoc.
    + intros [= <- <-]. by exists t2, log1.
Qed.

Lemma run_blind fuel : status_blind (run (W:=W) fuel).
Proof.
  induction fuel as [|n IH]; intros self s1 s2 r s1' Hal; [done|].
  cbn [run]. pose proof Hal as [Ht Hw].
  destruct (heap s1 !! self) as [n1|] eqn:Hl1; [|done].
  destruct (topology_lookup _ _ _ _ Ht Hl1) as (n2 & -> & Hfz).
  destruct n1 as [[|] children|cond|st1 act], n2 as [k2 ch2|cond2|st2 act2];
    simpl in Hfz; try done; inversion Hfz; subst.
  - by apply (Fallback_run_blind _ children IH self).
  - by apply (Sequence_run_blind _ children IH self).
  - unfold Condition_run, invoke. rewrite Hw.
    destruct (cond (world s2)) as [[v|e] w]; intros [= <- <-];
      eexists _, [self]; (split; [done|]); done.
  - unfold Action_run, invoke. rewrite Hw.
    destruct (act (world s2)) as [[v|e] w]; intros [= <- <-];
      eexists _, [self]; (split; [done|]); [|done].
    split; [|done]. split; [|done]. simpl.
    rewrite (topology_set_status _ _ _ _ _ Hl1).
    destruct (topology_lookup _ _ _ _ Ht Hl1) as (n2 & Hl2 & Hfz2).
    destruct n2 as [| |st2' act2']; try done. simpl in Hfz2.
    inversion Hfz2; subst.
    by rewrite (topology_set_status _ _ _ _ _ Hl2).
Qed.

(** X8.  No [run] ever reads [Action._status].  From two states with
    the same world whose stores differ only in stored statuses, a [run] of
    the same node gives the same outcome, invokes the same callables in
    the same order, and ends with the same world and stores that again
    differ only in stored statuses. *)
Theorem run_ignores_stored_status s1 s2 self r s1' :
  topology (heap s1) = topology (heap s2) ->
  world s1 = world s2 ->
  returns self s1 r s1' ->
  exists s2' log,
    returns self s2 r s2'
    /\ world s2' = world s1'
    /\ topology (heap s2') = topology (heap s1')
    /\ calls s1' = calls s1 ++ log
    /\ calls s2' = calls s2 ++ log.
Proof.
  intros Ht Hw [fuel Hrun].
  destruct (run_blind fuel self s1 s2 r s1' (conj Ht Hw) Hrun)
    as (s2' & log & Hr & [Ht' Hw'] & Hl1 & Hl2).
  exists s2', log. split; [by exists fuel|]. done.
Qed.

(** X9.  When a [run] returns RUNNING, the callable invoked last is the
    operation of an Action, and that Action's [_status] is RUNNING. *)
Theorem running_names_the_action s self s' :
  returns self s (Ret RUNNING) s' ->
  exists l action,
    last (calls s') = Some l
    /\ heap s' !! l = Some (Action RUNNING action).
Proof.
  intros [fuel Hrun]. revert self s Hrun.
  induction fuel as [|n IH]; intros self s Hrun; [done|].
  cbn [run] in Hrun.
  destruct (heap s !! self) as [[[|] children|cond|st0 act]|] eqn:Hl;
    [| | | |done].
  - apply Fallback_run_Ret_inv in Hrun
      as [[? _]|[_ (pre & c & post & s1 & _ & _ & Hc)]]; [done|]. eauto.
  - apply Sequence_run_Ret_inv in Hrun
      as [[? _]|[_ (pre & c & post & s1 & _ & _ & Hc)]]; [done|]. eauto.
  - unfold Condition_run, invoke in Hrun.
    destruct (cond (world s)) as [[v|e] w]; [|done].
    by destruct (truthy v).
  - unfold Action_run, invoke in Hrun.
    destruct (act (world s)) as [[v|e] w]; [|done].
    injection Hrun as -> <-. exists self, act. simpl.
    split; [apply last_snoc|apply lookup_insert_eq].
Qed.

(** X10.  On a store that is a forest, [run] on any allocated node comes
    back, returning or raising, and leaves a store that is again a forest
    with the node still in it: the tree can be ticked again. *)
Theorem run_comes_back_on_forest rank s self :
  ranked rank (heap s) ->
  is_Some (heap s !! self) ->
  exists r s',
    returns self s r s'
    /\ ranked rank (heap s')
    /\ is_Some (heap s' !! self).
Proof.
  intros Hr Hself.
  destruct (run_total rank (S (rank self)) self s Hr Hself ltac:(lia))
    as [[r s'] Hrun].
  exists r, s'. split; [by eexists|].
  apply run_topology in Hrun. split.
  - by eapply ranked_topology.
  - apply topology_is_Some. rewrite Hrun. by apply topology_is_Some.
Qed.

Lemma ranked_set_children rank (h : gmap loc (node W)) self k children children' :
  ranked rank h ->
  h !! self = Some (Composite k children) ->
  Forall (fun c => is_Some (h !! c) /\ (rank c < rank self)%nat) children' ->
  ranked rank (<[self := Composite k children']> h).
Proof.
  intros Hr Hself Hnew l k0 cs Hl.
  assert (Hkeep : forall c, is_Some (h !! c) ->
                            is_Some (<[self := Composite k children']> h !! c)).
  { intros c Hc. apply lookup_insert_is_Some.
    destruct (decide (self = c)); auto. }
  destruct (decide (l = self)) as [->|Hne].
  - rewrite lookup_insert_eq in Hl. injection Hl as <- <-.
    eapply Forall_impl; [exact Hnew|]. intros c [? ?]. auto.
  - rewrite lookup_insert_ne in Hl by done.
    eapply Forall_impl; [exact (Hr _ _ _ Hl)|]. intros c [? ?]. auto.
Qed.

(** X11.  Giving a composite a child that ranks below it, through
    [add_child] or through [insert_child] at any index, keeps a forest a
    forest. *)
Theorem add_insert_child_keep_forest rank s self k children child :
  ranked rank (heap s) ->
  heap s !! self = Some (Composite k children) ->
  is_Some (heap s !! child) ->
  (rank child < rank self)%nat ->
  (forall o s', add_child self child s = Some (o, s') ->
                ranked rank (heap s'))
  /\ (forall index o s', insert_child self index child s = Some (o, s') ->
                         ranked rank (heap s')).
Proof.
  intros Hr Hself Hchild Hlt.
  pose proof (Hr _ _ _ Hself) as Hkids.
  split.
  - intros o s'. unfold add_child. rewrite Hself. intros [= _ <-]. simpl.
    eapply ranked_set_children; [done..|].
    apply Forall_app. split; [done|]. by repeat constructor.
  - intros index o s'. unfold insert_child. rewrite Hself.
    destruct (pylist_insert children index child) as [cs|e] eqn:Hins;
      intros [= _ <-]; [|done]. simpl.
    eapply ranked_set_children; [done..|].
    unfold pylist_insert in Hins.
    destruct (as_ssize_t index); [|done]. injection Hins as <-.
    apply Forall_app. split; [by apply Forall_take|].
    constructor; [done|by apply Forall_drop].
Qed.

(** X12.  Chained calls [self.add_child(x1).add_child(x2)...] all act on
    the same composite: the chain returns it holding its former children
    followed by [x1, x2, ...] in that order, and changes nothing else. *)
Theorem add_children_appends s self k children xs :
  heap s !! self = Some (Composite k children) ->
  exists s',
    add_children self xs s = Some (Ret self, s')
    /\ heap s' !! self = Some (Composite k (children ++ xs))
    /\ (forall l, l <> self -> heap s' !! l = heap s !! l)
    /\ world s' = world s /\ calls s' = calls s.
Proof.
  revert s children. induction xs as [|x rest IH]; intros s children Hself.
  - exists s. simpl. by rewrite app_nil_r.
  - simpl. unfold add_child. rewrite Hself.
    set (s1 := set_heap _ s).
    destruct (IH s1 (pylist_append children x)) as (s' & Hrun & Hkids & Hfr & Hw & Hc).
    { subst s1. simpl. apply lookup_insert_eq. }
    exists s'. split; [done|]. split.
    { rewrite Hkids. unfold pylist_append. by rewrite <- app_assoc. }
    split; [|done].
    intros l Hl. rewrite (Hfr l Hl). subst s1. simpl.
    by apply lookup_insert_ne.
Qed.

(** X13.  A freshly constructed composite is a new object with no
    children, and construction disturbs no existing object, the world or
    the call record.  Run at once, a new Fallback returns FAIL and a new
    Sequence returns SUCCESS without invoking anything. *)
Theorem new_Composite_is_empty k (s0 : state W) :
  let '(l, s1) := new_Composite k s0 in
  heap s0 !! l = None
  /\ heap s1 !! l = Some (Composite k [])
  /\ (forall l', l' <> l -> heap s1 !! l' = heap s0 !! l')
  /\ world s1 = world s0 /\ calls s1 = calls s0
  /\ returns l s1 (Ret (match k with Fallback => FAIL | Sequence => SUCCESS end)) s1.
Proof.
  unfold new_Composite, alloc. simpl.
  set (l := fresh (dom (heap s0))).
  split; [apply not_elem_of_dom, is_fresh|].
  split; [apply lookup_insert_eq|].
  split; [intros l' Hl'; by apply lookup_insert_ne|].
  split; [done|]. split; [done|].
  exists 1%nat. cbn [run]. simpl. rewrite lookup_insert_eq. by destruct k.
Qed.

(** X14.  [insert_child] with an index from the number of children up to
    [PY_SSIZE_T_MAX] does exactly what [add_child] does: same return
    value, same resulting state. *)
Theorem insert_child_at_end_is_add_child s self k children index child :
  heap s !! self = Some (Composite k children) ->
  Z.of_nat (length children) <= index <= PY_SSIZE_T_MAX ->
  insert_child self index child s = add_child self child s.
Proof.
  intros Hself Hidx.
  rewrite (insert_child_fits _ _ _ _ _ _ Hself)
    by (unfold PY_SSIZE_T_MIN; lia).
  unfold add_child. rewrite Hself. simpl.
  rewrite insert_position_spec by lia.
  assert (Hp : Z.to_nat (if decide (Z.of_nat (length children) < index)
                         then Z.of_nat (length children)
                         else if decide (index < 0)
                              then 0 `max` (Z.of_nat (length children) + index)
                              else index) = length children)
    by (repeat case_decide; lia).
  rewrite Hp, take_ge, drop_ge by lia. done.
Qed.

End MoreProperties.

(** * Further runs on the demo stores *)

Lemma Fallback_run_outcome_witness :
  exists pre c post s1,
    [cond_false; act_ok; act_boom] = pre ++ c :: post
    /\ all_return FAIL pre init s1
    /\ returns c s1 (Ret SUCCESS)
               (State (recorded act_ok SUCCESS (reports SUCCESS) store)
                      2%nat [cond_false; act_ok]).
Proof.
  exact (Fallback_run_outcome init fallback3 _ (Ret SUCCESS) _ eq_refl
           (ex_intro _ 2%nat eq_refl)).
Defined.

Lemma Sequence_run_outcome_witness :
  exists pre c post s1,
    [cond_true; cond_false; act_boom] = pre ++ c :: post
    /\ all_return SUCCESS pre init s1
    /\ returns c s1 (Ret FAIL) (State store 2%nat [cond_true; cond_false]).
Proof.
  exact (Sequence_run_outcome init sequence3 _ (Ret FAIL) _ eq_refl
           (ex_intro _ 2%nat eq_refl)).
Defined.

Lemma single_child_transparent_witness :
  heap Nesting.init !! Nesting.solo = Some (Composite Fallback [act_move])
  /\ returns Nesting.solo Nesting.init (Ret RUNNING)
             (State (recorded act_move RUNNING moves Nesting.store)
                    1%nat [act_move]).
Proof.
  split; [reflexivity|].
  apply (proj2 (single_child_transparent Nesting.init Nesting.solo Fallback
                  act_move _ _ eq_refl)).
  exists 1%nat. reflexivity.
Defined.

Lemma Fallback_flatten_witness :
  returns Nesting.outer_fb Nesting.init (Ret SUCCESS)
          (State (recorded act_move SUCCESS moves Nesting.store) 3%nat
                 [cond_false; cond_false; act_move])
  /\ returns Nesting.flat_fb Nesting.init (Ret SUCCESS)
             (State (recorded act_move SUCCESS moves Nesting.store) 3%nat
                    [cond_false; cond_false; act_move]).
Proof.
  assert (H : returns Nesting.outer_fb Nesting.init (Ret SUCCESS)
                (State (recorded act_move SUCCESS moves Nesting.store) 3%nat
                       [cond_false; cond_false; act_move]))
    by (exists 3%nat; reflexivity).
  split; [exact H|].
  exact (proj1 (Fallback_flatten Nesting.init Nesting.outer_fb
                  Nesting.inner_fb Nesting.flat_fb
                  [cond_false] [cond_false; act_move] [act_boom] _ _
                  eq_refl eq_refl eq_refl) H).
Defined.

Lemma Sequence_flatten_witness :
  returns Nesting.flat_sq Nesting.init (Raise (Exception "boom"))
          (State (recorded act_move SUCCESS moves Nesting.store) 4%nat
                 [cond_true; cond_true; act_move; act_boom])
  /\ returns Nesting.outer_sq Nesting.init (Raise (Exception "boom"))
             (State (recorded act_move SUCCESS moves Nesting.store) 4%nat
                    [cond_true; cond_true; act_move; act_boom]).
Proof.
  assert (H : returns Nesting.flat_sq Nesting.init (Raise (Exception "boom"))
                (State (recorded act_move SUCCESS moves Nesting.store) 4%nat
                       [cond_true; cond_true; act_move; act_boom]))
    by (exists 2%nat; reflexivity).
  split; [exact H|].
  exact (proj2 (Sequence_flatten Nesting.init Nesting.outer_sq
                  Nesting.inner_sq Nesting.flat_sq
                  [cond_true] [cond_true; act_move] [act_boom] _ _
                  eq_refl eq_refl eq_refl) H).
Defined.

Lemma run_writes_only_invoked_leaves_witness :
  exists log,
    [cond_false; act_ok] = [] ++ log
    /\ (forall l, l ∉ log ->
          recorded act_ok SUCCESS (reports SUCCESS) store !! l = store !! l)
    /\ (forall l,
          frozen <$> recorded act_ok SUCCESS (reports SUCCESS) store !! l
          = frozen <$> store !! l).
Proof.
  exact (run_writes_only_invoked_leaves init fallback3 (Ret SUCCESS)
           (State (recorded act_ok SUCCESS (reports SUCCESS) store)
                  2%nat [cond_false; act_ok])
           (ex_intro _ 2%nat eq_refl)).
Defined.

Lemma run_ignores_stored_status_witness :
  exists s2' log,
    returns fallback3
            (State (recorded act_ok FAIL (reports SUCCESS) store) O [act_boom])
            (Ret SUCCESS) s2'
    /\ world s2' = 2%nat
    /\ topology (heap s2')
       = topology (recorded act_ok SUCCESS (reports SUCCESS) store)
    /\ [cond_false; act_ok] = [] ++ log
    /\ calls s2' = [act_boom] ++ log.
Proof.
  exact (run_ignores_stored_status init
           (State (recorded act_ok FAIL (reports SUCCESS) store) O [act_boom])
           fallback3 (Ret SUCCESS)
           (State (recorded act_ok SUCCESS (reports SUCCESS) store)
                  2%nat [cond_false; act_ok])
           eq_refl eq_refl (ex_intro _ 2%nat eq_refl)).
Defined.

Lemma running_names_the_action_witness :
  exists l action,
    last [act_move] = Some l
    /\ recorded act_move RUNNING moves Nesting.store !! l
       = Some (Action RUNNING action).
Proof.
  exact (running_names_the_action Nesting.init Nesting.solo
           (State (recorded act_move RUNNING moves Nesting.store)
                  1%nat [act_move])
           (ex_intro _ 2%nat eq_refl)).
Defined.

Lemma run_comes_back_on_forest_witness :
  exists r s',
    returns nested init r s'
    /\ ranked rank (heap s')
    /\ is_Some (heap s' !! nested).
Proof.
  exact (run_comes_back_on_forest rank init nested store_ranked
           (ex_intro _ _ eq_refl)).
Defined.

Lemma add_insert_child_keep_forest_witness :
  (forall o s', add_child nested cond_false init = Some (o, s') ->
                ranked rank (heap s'))
  /\ (forall index o s',
         insert_child nested index cond_false init = Some (o, s') ->
         ranked rank (heap s')).
Proof.
  apply (add_insert_child_keep_forest rank init nested Sequence
           [cond_true; fallback2; act_ok] cond_false store_ranked eq_refl
           (ex_intro _ _ eq_refl)).
  vm_compute. lia.
Defined.

Lemma add_children_appends_witness :
  exists s',
    add_children fallback2 [act_ok; cond_true] init = Some (Ret fallback2, s')
    /\ heap s' !! fallback2
       = Some (Composite Fallback
                 ([cond_false; act_boom] ++ [act_ok; cond_true]))
    /\ (forall l, l <> fallback2 -> heap s' !! l = heap init !! l)
    /\ world s' = world init /\ calls s' = calls init.
Proof.
  exact (add_children_appends init fallback2 Fallback
           [cond_false; act_boom] [act_ok; cond_true] eq_refl).
Defined.

Lemma insert_child_at_end_is_add_child_witness :
  insert_child fallback2 7 act_ok init = add_child fallback2 act_ok init.
Proof.
  apply (insert_child_at_end_is_add_child init fallback2 Fallback
           [cond_false; act_boom] 7 act_ok eq_refl).
  unfold PY_SSIZE_T_MAX. simpl. lia.
Defined.
